(** * matminer.featurizers.function: FunctionFeaturizer

    A shallow embedding of [matminer/featurizers/function.py] and the
    properties of its combination generator and substitution engine.

    Layout:
    - [Py]         the fragment of the Python runtime the module relies on:
                   exception classes, results, generators, [range];
    - [itertools]  [combinations], [product], [permutations];
    - [SymPy]      the interface of the symbolic engine (an external library);
    - the module itself: [default_exps], [generate_expressions_combinations],
      [FunctionFeaturizer] with [__init__], [featurize], [feature_labels],
      [_exp_iter];
    - the enumeration of the outputs as the specification describes it;
    - [Model]      an executable model of the symbolic engine on the fragment
                   of expressions the examples use, and [Examples];
    - the properties: first for every engine, then on the model. *)

From Stdlib Require Import ZArith QArith Reals Lra Lia Ascii.
From stdpp Require Import base option list gmap strings pretty sorting.

Local Open Scope Z_scope.

(* ================================================================== *)
(** ** Python runtime                                                  *)
(* ================================================================== *)

Module Py.

(** Exception classes, with the base class of each one. *)
Inductive exn : Set :=
| Exception
| TypeError
| ValueError
| ArithmeticError
| OverflowError
| ZeroDivisionError
| LookupError
| KeyError
| AttributeError
| RecursionError
| SyntaxError
| SympifyError.

#[export] Instance exn_eq_dec : EqDecision exn.
Proof. solve_decision. Defined.

Definition exn_base (c : exn) : option exn :=
  match c with
  | Exception => None
  | TypeError | ValueError | ArithmeticError | LookupError
  | AttributeError | RecursionError | SyntaxError => Some Exception
  | OverflowError | ZeroDivisionError => Some ArithmeticError
  | KeyError => Some LookupError
  | SympifyError => Some ValueError
  end.

(** [issubclass c d]: walk up from [c]; the hierarchy above has height 3. *)
Fixpoint issubclass_upto (k : nat) (c d : exn) : bool :=
  if decide (c = d) then true
  else match k, exn_base c with
       | S k', Some b => issubclass_upto k' b d
       | _, _ => false
       end.

Definition issubclass : exn → exn → bool := issubclass_upto 3.

(** An [except (c1, c2, ...)] clause handles the instances of the listed
    classes and of their subclasses. *)
Definition except_ (classes : list exn) (c : exn) : bool :=
  existsb (issubclass c) classes.

(** The outcome of evaluating an expression: a value or a raised
    exception. *)
Inductive result (A : Type) : Type :=
| Return (a : A)
| Raise (c : exn).
Arguments Return {A} a.
Arguments Raise {A} c.

#[export] Instance result_ret : MRet result := @Return.
#[export] Instance result_bind : MBind result := λ A B f m,
  match m with
  | Return a => f a
  | Raise c => Raise c
  end.
#[export] Instance result_fmap : FMap result := λ A B f m,
  match m with
  | Return a => Return (f a)
  | Raise c => Raise c
  end.

(** A generator run to its end: the values it yielded, in order, and how it
    ended (a normal return, seen by the consumer as StopIteration, or an
    exception that leaves the generator). *)
Record gen (Y A : Type) : Type := Gen {
  yielded : list Y;
  ending : result A
}.
Arguments Gen {Y A} yielded ending.
Arguments yielded {Y A} g.
Arguments ending {Y A} g.

Section Gen.
Context {Y : Type}.

#[export] Instance gen_ret : MRet (gen Y) := λ A a, Gen [] (Return a).

#[export] Instance gen_bind : MBind (gen Y) := λ A B k m,
  match ending m with
  | Return a => Gen (yielded m ++ yielded (k a)) (ending (k a))
  | Raise c => Gen (yielded m) (Raise c)
  end.

(** [yield y] *)
Definition yield (y : Y) : gen Y () := Gen [y] (Return ()).

(** Evaluation of an expression inside the generator body. *)
Definition eval {A} (r : result A) : gen Y A := Gen [] r.

(** [try: body except classes: handler].  What [body] yielded before it
    raised has already been handed to the consumer. *)
Definition try_except {A} (body : gen Y A) (classes : list exn)
    (handler : gen Y A) : gen Y A :=
  match ending body with
  | Return _ => body
  | Raise c =>
      if except_ classes c
      then Gen (yielded body ++ yielded handler) (ending handler)
      else body
  end.

(** [for x in xs: body x] *)
Fixpoint for_ {X} (xs : list X) (body : X → gen Y ()) : gen Y () :=
  match xs with
  | [] => mret ()
  | x :: xs' => body x ≫= λ _, for_ xs' body
  end.

(** [list(g)]: the yielded values if the generator ends normally, the
    exception otherwise. *)
Definition list_ {A} (g : gen Y A) : result (list Y) :=
  match ending g with
  | Return _ => Return (yielded g)
  | Raise c => Raise c
  end.
End Gen.

(** [range(start, stop)] *)
Definition range (start stop : Z) : list Z := seqZ start (stop - start).

(** [d[k]] on a dict. *)
Definition getitem {V} (d : gmap Z V) (k : Z) : result V :=
  match d !! k with
  | Some v => Return v
  | None => Raise KeyError
  end.

(** The values the module handles: [None], floats (by their exact real
    value), strings and symbolic expressions of type [E]. *)
Inductive pyobj (E : Type) : Type :=
| PyNone
| PyFloat (x : R)
| PyStr (s : string)
| PyExpr (e : E).
Arguments PyNone {E}.
Arguments PyFloat {E} x.
Arguments PyStr {E} s.
Arguments PyExpr {E} e.

(** The iteration order of a [set]: it depends on the hashes of the
    elements, so all that is known of [list(s)] is that it lists the
    elements of [s], each once. *)
Record SetOrder (A : Type) : Type := {
  set_iter : list A → list A;
  set_iter_perm : ∀ l, set_iter l ≡ₚ l
}.
Arguments set_iter {A} _ l.
Arguments set_iter_perm {A} _ l.

End Py.
Import Py.

(* ================================================================== *)
(** ** itertools                                                       *)
(* ================================================================== *)

Module itertools.
Section itertools.
Context {A : Type}.

(** [combinations(l, r)]: the length-[r] subsequences of [l], in the order
    of the positions chosen. *)
Fixpoint combinations (l : list A) (r : nat) : list (list A) :=
  match r, l with
  | O, _ => [[]]
  | S _, [] => []
  | S r', x :: xs => ((x ::.) <$> combinations xs r') ++ combinations xs r
  end.

(** [product] of the pools: one element of each pool, the rightmost pool
    advancing fastest. *)
Fixpoint product (pools : list (list A)) : list (list A) :=
  match pools with
  | [] => [[]]
  | p :: ps => x ← p; (x ::.) <$> product ps
  end.

(** Each element of [l] together with the others, by position. *)
Fixpoint picks (l : list A) : list (A * list A) :=
  match l with
  | [] => []
  | x :: xs => (x, xs) :: ((λ p, (p.1, x :: p.2)) <$> picks xs)
  end.

Fixpoint permutations_of_length (n : nat) (l : list A) : list (list A) :=
  match n with
  | O => [[]]
  | S n' => p ← picks l; (p.1 ::.) <$> permutations_of_length n' p.2
  end.

(** [permutations(l)]: all orderings of the positions of [l], in
    lexicographic order of the positions; equal elements at different
    positions are not identified. *)
Definition permutations (l : list A) : list (list A) :=
  permutations_of_length (length l) l.
End itertools.
End itertools.

(* ================================================================== *)
(** ** The symbolic engine                                             *)
(* ================================================================== *)

(** What the module uses of sympy.  Expressions are compared and hashed by
    the structure of their automatically canonicalised form: this is the
    equality of [Expr], and the one a [set] of expressions goes by. *)
Class SymPy : Type := {
  Expr : Type;
  Expr_eq_dec :: EqDecision Expr;
  (** [parse_expr(s)] *)
  parse_expr : string → result Expr;
  (** [e.subs(d)]: the values of [d] are sympified, then substituted for the
      symbols named by its keys *)
  subs : Expr → list (string * pyobj Expr) → result Expr;
  (** [a * b], and the number one *)
  mul : Expr → Expr → Expr;
  one : Expr;
  (** [float(e)], [str(e)], [sympy.latex(e)] *)
  float : Expr → result R;
  str : Expr → result string;
  latex : Expr → result string;
  (** the order in which a set of expressions is iterated *)
  hash_order : SetOrder Expr
}.

(** The values of a program that uses the engine. *)
Abbreviation PyObj := (pyobj Expr).

(* ================================================================== *)
(** ** matminer.featurizers.function                                   *)
(* ================================================================== *)

Section FunctionFeaturizer.
Context `{SymPy}.

(** A combining function takes a tuple of expressions and may raise. *)
Definition combiner : Type := list Expr → result Expr.

(** [np.prod] on a tuple of expressions multiplies them from the left;
    the empty product is one. *)
Definition np_prod : combiner := λ exps,
  Return match exps with
         | [] => one
         | e :: es => foldl mul e es
         end.

(** [set(l)], [s - t], [list(s)] *)
Definition set_ (l : list Expr) : list Expr := remove_dups l.
Definition set_difference (s t : list Expr) : list Expr := list_difference s t.
Definition list_of_set (s : list Expr) : list Expr := set_iter hash_order s.

(** ["x{}".format(n)] *)
Definition x_ {N} `{Pretty N} (n : N) : string := "x" +:+ pretty n.

(** Default expressions to include in function featurizer *)
Definition default_exps : list string :=
  ["x"; "1/x"; "sqrt(x)"; "1/sqrt(x)"; "x**2"; "x**-2"; "x**3";
   "x**-3"; "log(x)"; "1/log(x)"; "exp(x)"; "exp(-x)"]%string.

(** The list [combo_exps] built by the two nested loops of
    [generate_expressions_combinations]: every ordering of every pick of
    one expression per array is combined, in the order of the loops. *)
Definition combo_exps (all_arrays : list (list Expr))
    (combo_function : combiner) : result (list Expr) :=
  mapM combo_function
       (exp_set ← itertools.product all_arrays;
        itertools.permutations exp_set).

Definition generate_expressions_combinations (expressions : list string)
    (combo_depth : Z) (combo_function : combiner) : result (list Expr) :=
  (* Convert to array for simpler subsitution *)
  exp_array ← mapM parse_expr expressions;
  (* Generate all of the combinations *)
  all_arrays ← mapM (λ n, mapM (λ e, subs e [("x"%string, PyStr (x_ n))])
                               exp_array)
                    (range 0 combo_depth);
  combo_exps ← combo_exps all_arrays combo_function;
  (* Filter for unique combinations, also remove identity; the set
     difference [set(combo_exps) - set([parse_expr('x0')])] is what line
     213 computes once the stray character after the list is dropped *)
  x0 ← parse_expr "x0";
  let unique_exps := list_of_set (set_difference (set_ combo_exps) (set_ [x0])) in
  mret unique_exps.

(** The candidates: [combo_exps] as the function builds it, before the
    filtering. *)
Definition candidates (expressions : list string) (combo_depth : Z)
    (combo_function : combiner) : result (list Expr) :=
  exp_array ← mapM parse_expr expressions;
  all_arrays ← mapM (λ n, mapM (λ e, subs e [("x"%string, PyStr (x_ n))])
                               exp_array)
                    (range 0 combo_depth);
  combo_exps all_arrays combo_function.

Record FunctionFeaturizer : Type := {
  expressions : list string;
  multi_feature_depth : Z;
  combo_function : combiner;
  exp_dict : gmap Z (list Expr)
}.

(** [a or b] on an optional list: [None] and the empty list are falsy. *)
Definition or_list {A} (a : option (list A)) (b : list A) : list A :=
  match a with
  | Some (x :: l) => x :: l
  | _ => b
  end.

(** The constructor.  The table is generated with the default
    [combo_function] of [generate_expressions_combinations]: the
    configured one is stored and not passed on. *)
Definition __init__ (expressions : option (list string))
    (multi_feature_depth : Z)
    (combo_function : option combiner) : result FunctionFeaturizer :=
  let expressions := or_list expressions default_exps in
  let combo_function := default np_prod combo_function in
  (* Generate lists of sympy expressions keyed by number of features *)
  items ← mapM (λ n, exps ← generate_expressions_combinations expressions n np_prod;
                     mret (n, exps))
               (range 1 (multi_feature_depth + 1));
  mret {| expressions := expressions;
          multi_feature_depth := multi_feature_depth;
          combo_function := combo_function;
          exp_dict := list_to_map items |}.

(** Generates an iterator for substitution of a set of args into the set
    of expression corresponding to the featurizer. *)
Definition _exp_iter (self : FunctionFeaturizer) (args : list PyObj)
    (postprocess : option (Expr → result PyObj)) : gen PyObj () :=
  let postprocess := default (λ x, Return (PyExpr x)) postprocess in
  for_ (range 1 (multi_feature_depth self + 1)) (λ n,
    for_ (itertools.combinations args (Z.to_nat n)) (λ arg_combo,
      let subs_dict := imap (λ m arg, (x_ m, arg)) arg_combo in
      exps ← eval (getitem (exp_dict self) n);
      for_ exps (λ exp,
        try_except
          (v ← eval (subs exp subs_dict ≫= postprocess); yield v)
          [TypeError; ValueError]
          (yield PyNone)))).

(** The builtins [float] and [str], and [sympy.latex], as postprocessing
    functions. *)
Definition py_float (e : Expr) : result PyObj := PyFloat <$> float e.
Definition py_str (e : Expr) : result PyObj := PyStr <$> str e.
Definition sp_latex (e : Expr) : result PyObj := PyStr <$> latex e.

(** Main featurizer function; [postprocess] defaults to [py_float]. *)
Definition featurize (self : FunctionFeaturizer) (args : list PyObj)
    (postprocess : option (Expr → result PyObj)) : result (list PyObj) :=
  list_ (_exp_iter self args postprocess).

Definition feature_labels (self : FunctionFeaturizer) (col_id : list string)
    (latexify_labels : bool) : result (list PyObj) :=
  let postprocess := if latexify_labels then sp_latex else py_str in
  list_ (_exp_iter self (PyStr <$> col_id) (Some postprocess)).

End FunctionFeaturizer.

(* ================================================================== *)
(** ** The enumeration of the outputs, as specified                    *)
(* ================================================================== *)

(** The tuples of [n] indices drawn from [pool], in lexicographic order. *)
Fixpoint index_tuples (n : nat) (pool : list nat) : list (list nat) :=
  match n with
  | O => [[]]
  | S n' => i ← pool; (i ::.) <$> index_tuples n' pool
  end.

(** [a < t0 < t1 < ...] *)
Fixpoint increasing_from (a : nat) (t : list nat) : bool :=
  match t with
  | [] => true
  | b :: t' => bool_decide (a < b)%nat && increasing_from b t'
  end.

Definition increasing (t : list nat) : bool :=
  match t with
  | [] => true
  | a :: t' => increasing_from a t'
  end.

(** The selections of [n] positions out of [len] in combinatorial order:
    increasing indices (no repeat, no re-ordering), listed
    lexicographically. *)
Definition index_combinations (n len : nat) : list (list nat) :=
  filter increasing (index_tuples n (seq 0 len)).

(** The lexicographic order on index tuples. *)
Inductive lex_lt : list nat → list nat → Prop :=
| lex_lt_head a b s t : (a < b)%nat → lex_lt (a :: s) (b :: t)
| lex_lt_tail a s t : lex_lt s t → lex_lt (a :: s) (a :: t).

(** The elements of [l] at the positions [idxs]. *)
Definition select {A} (l : list A) (idxs : list nat) : list A :=
  omap (l !!.) idxs.

(** The exceptions that the handler of [_exp_iter] catches. *)
Definition handled (c : exn) : bool := except_ [TypeError; ValueError] c.

Section Enumeration.
Context `{SymPy}.

(** The combination table's list for depth [n]. *)
Definition table (self : FunctionFeaturizer) (n : Z) : list Expr :=
  default [] (exp_dict self !! n).

(** The (depth, argument combination, expression) triples, depth
    ascending, then the argument combinations in combinatorial order, then
    the expressions in table order. *)
Definition triples (self : FunctionFeaturizer) (nargs : nat)
    : list (Z * list nat * Expr) :=
  n ← range 1 (multi_feature_depth self + 1);
  idxs ← index_combinations (Z.to_nat n) nargs;
  exp ← table self n;
  [(n, idxs, exp)].

(** The slots [x0], [x1], ... bound to the selected arguments. *)
Definition bind_slots (arg_combo : list PyObj) : list (string * PyObj) :=
  imap (λ m arg, (x_ m, arg)) arg_combo.

(** What substitution and postprocessing give for one triple. *)
Definition evaluated (args : list PyObj) (postprocess : Expr → result PyObj)
    (t : Z * list nat * Expr) : result PyObj :=
  subs t.2 (bind_slots (select args t.1.2)) ≫= postprocess.

(** The output at the position of a triple: the postprocessed value, the
    missing sentinel in place of a handled exception, and any other
    exception left to propagate. *)
Definition recovered (r : result PyObj) : result PyObj :=
  match r with
  | Return v => Return v
  | Raise c => if handled c then Return PyNone else Raise c
  end.

(** The table has a list for every depth up to [multi_feature_depth]. *)
Definition complete (self : FunctionFeaturizer) : Prop :=
  ∀ n, 1 ≤ n ≤ multi_feature_depth self → is_Some (exp_dict self !! n).

(** The postprocessing function [_exp_iter] ends up with. *)
Definition postprocess_or_identity (postprocess : option (Expr → result PyObj))
    : Expr → result PyObj :=
  default (λ x, Return (PyExpr x)) postprocess.

(** The postprocessing function of [feature_labels]. *)
Definition render (latexify_labels : bool) : Expr → result PyObj :=
  if latexify_labels then sp_latex else py_str.
End Enumeration.

(* ================================================================== *)
(** ** An executable model of the symbolic engine                      *)
(* ================================================================== *)

(** Expressions are kept in a canonical form, built bottom-up by [add],
    [mul] and [pow] the way the engine's constructors do it: sums and
    products are flattened and sorted, like terms and powers of one base are
    collected.  The fragment: symbols, integer literals, [+ - * / **],
    [sqrt], [log], [exp]; other strings are rejected by the parser.  Floats
    are taken by their exact real value: substituting floats for all the
    symbols of an expression evaluates it at once, as the engine does, and
    what is then not a real number (a pole, a complex value) cannot be
    converted by [float]. *)
Module Model.

#[warnings="-register-all"] Inductive expr : Type :=
| Symbol (name : string)
| Rational (q : Q)
| Float (x : R)
| Pow (base exponent : expr)
| Log (arg : expr)
| Exp (arg : expr)
| Mul (args : list expr)
| Add (args : list expr).

#[export] Instance Q_eq_dec : EqDecision Q.
Proof. solve_decision. Defined.

Fixpoint expr_eq_dec (a b : expr) : {a = b} + {a ≠ b}.
Proof.
  decide equality.
  - apply (_ : EqDecision string).
  - apply Q_eq_dec.
  - apply Req_dec_T.
  - apply (list_eq_dec (dec:=expr_eq_dec)).
  - apply (list_eq_dec (dec:=expr_eq_dec)).
Defined.
#[export] Instance expr_eq : EqDecision expr := expr_eq_dec.

(** *** The canonical order of arguments *)

Definition rank (e : expr) : nat :=
  match e with
  | Rational _ => 0 | Float _ => 1 | Symbol _ => 2 | Pow _ _ => 3
  | Log _ => 4 | Exp _ => 5 | Mul _ => 6 | Add _ => 7
  end.

Definition lex (c d : comparison) : comparison :=
  match c with Eq => d | _ => c end.

Fixpoint compare (a b : expr) : comparison :=
  match a, b with
  | Symbol s, Symbol t => String.compare s t
  | Rational p, Rational q => Qcompare p q
  | Float x, Float y =>
      if Rlt_dec x y then Lt else if Rlt_dec y x then Gt else Eq
  | Pow b e, Pow b' e' => lex (compare b b') (compare e e')
  | Log a', Log b' => compare a' b'
  | Exp a', Exp b' => compare a' b'
  | Mul l, Mul l' | Add l, Add l' =>
      (fix go (l l' : list expr) : comparison :=
         match l, l' with
         | [], [] => Eq
         | [], _ :: _ => Lt
         | _ :: _, [] => Gt
         | x :: xs, y :: ys => lex (compare x y) (go xs ys)
         end) l l'
  | _, _ => Nat.compare (rank a) (rank b)
  end.

Definition leb (a b : expr) : bool :=
  match compare a b with Gt => false | _ => true end.

Fixpoint insert_sorted (a : expr) (l : list expr) : list expr :=
  match l with
  | [] => [a]
  | b :: l' => if leb a b then a :: l else b :: insert_sorted a l'
  end.

Definition sort (l : list expr) : list expr := foldr insert_sorted [] l.

(** *** Sums *)

Definition zero : expr := Rational 0.
Definition one : expr := Rational 1.

Definition is_rational (e : expr) : option Q :=
  match e with Rational q => Some q | _ => None end.

(** A term as a rational coefficient and the rest. *)
Definition as_coeff_Mul (e : expr) : Q * expr :=
  match e with
  | Rational q => (q, one)
  | Mul (Rational q :: [f]) => (q, f)
  | Mul (Rational q :: fs) => (q, Mul fs)
  | _ => (1%Q, e)
  end.

(** The product of a rational coefficient and a term that has none. *)
Definition coeff_Mul (q : Q) (e : expr) : expr :=
  if decide (q = 1%Q) then e
  else match e with
       | Rational p => Rational (Qred (q * p))
       | Mul fs => Mul (Rational q :: fs)
       | _ => Mul [Rational q; e]
       end.

(** Add [v] to what the key [k] is bound to. *)
Fixpoint collect {V} (plus : V → V → V) (k : expr) (v : V)
    (m : list (expr * V)) : list (expr * V) :=
  match m with
  | [] => [(k, v)]
  | (k', v') :: m' =>
      if decide (k = k') then (k', plus v' v) :: m'
      else (k', v') :: collect plus k v m'
  end.

Definition Qplus_red (p q : Q) : Q := Qred (p + q).
Definition Qmult_red (p q : Q) : Q := Qred (p * q).

Definition flatten_Add (l : list expr) : list expr :=
  e ← l; match e with Add ts => ts | _ => [e] end.

(** [Add] of the terms [l]: nested sums are flattened, like terms are
    collected, terms with coefficient zero are dropped, and the rest is
    sorted. *)
Definition add (l : list expr) : expr :=
  let terms := foldl (λ m e, let '(q, t) := as_coeff_Mul e in
                             collect Qplus_red t q m) [] (flatten_Add l) in
  let terms := filter (λ kv, kv.2 ≠ 0%Q) terms in
  match sort ((λ kv, coeff_Mul kv.2 kv.1) <$> terms) with
  | [] => zero
  | [t] => t
  | ts => Add ts
  end.

(** *** Products *)

Definition flatten_Mul (l : list expr) : list expr :=
  e ← l; match e with Mul fs => fs | _ => [e] end.

(** A factor as a base and an exponent; [exp(a)] is [E**a], and [E] is
    [exp(1)]. *)
Definition E : expr := Exp one.
Definition as_base_exp (e : expr) : expr * expr :=
  match e with
  | Pow b x => (b, x)
  | Exp a => (E, a)
  | _ => (e, one)
  end.

Definition base_exp (b x : expr) : expr :=
  if decide (x = zero) then one
  else if decide (b = E) then Exp x
  else if decide (x = one) then b
  else Pow b x.

(** [Mul] of the factors [l]: nested products are flattened, the rational
    factors are multiplied, powers of one base are collected, and the rest
    is sorted; a rational coefficient is distributed over a sum that is the
    only other factor. *)
Definition mul (l : list expr) : expr :=
  let fs := flatten_Mul l in
  let powers := foldl (λ m e, match e with
                              | Rational _ => m
                              | _ => let '(b, x) := as_base_exp e in
                                     collect (λ x y, add [x; y]) b x m
                              end) [] fs in
  let fs' := (λ kv, base_exp kv.1 kv.2) <$> powers in
  let c := foldl Qmult_red 1%Q (omap is_rational (fs ++ fs')) in
  let fs' := sort (filter (λ e, is_rational e = None) fs') in
  if decide (c = 0%Q) then zero
  else match fs' with
       | [] => Rational c
       | [Add ts] => add (coeff_Mul c <$> ts)
       | [f] => coeff_Mul c f
       | _ => coeff_Mul c (Mul fs')
       end.

(** *** Powers and functions *)

Definition is_integer (e : expr) : option Z :=
  match e with
  | Rational (Qmake n 1) => Some n
  | _ => None
  end.

Definition Qpower_red (q : Q) (n : Z) : Q := Qred (Qpower q n).

(** [b**x] for a base that is not a product. *)
Definition pow_atom (b x : expr) : expr :=
  if decide (x = zero) then one
  else if decide (x = one) then b
  else if decide (b = one) then one
  else match is_integer x, b with
       | Some n, Rational q =>
           if decide (q = 0%Q) then Pow b x else Rational (Qpower_red q n)
       | Some n, Pow b' x' => base_exp b' (mul [x'; x])
       | Some n, Exp a => Exp (mul [x; a])
       | _, _ => Pow b x
       end.

(** [b**x]: an integer power of a product is the product of the powers. *)
Definition pow (b x : expr) : expr :=
  match is_integer x, b with
  | Some _, Mul fs => mul ((λ f, pow_atom f x) <$> fs)
  | _, _ => pow_atom b x
  end.

Definition sqrt (a : expr) : expr := pow a (Rational (1 # 2)).

Definition log (a : expr) : expr :=
  if decide (a = one) then zero
  else if decide (a = E) then one
  else Log a.

Definition exp (a : expr) : expr :=
  if decide (a = zero) then one
  else match a with
       | Log b => b
       | _ => Exp a
       end.

Definition neg (a : expr) : expr := mul [Rational (-1); a].
Definition sub (a b : expr) : expr := add [a; neg b].
Definition div (a b : expr) : expr := mul [a; pow b (Rational (-1))].

(** *** Parsing *)

Inductive token : Set :=
| TNum (n : Z)
| TName (s : string)
| TPlus | TMinus | TStar | TSlash | TPow | TLpar | TRpar.

(** The token being read. *)
Inductive partial : Set :=
| PNone
| PNum (n : Z)
| PName (s : string).

Definition flush (p : partial) : list token :=
  match p with
  | PNone => []
  | PNum n => [TNum n]
  | PName s => [TName s]
  end.

Definition digit_of (c : ascii) : option Z :=
  let n := Z.of_N (Ascii.N_of_ascii c) in
  if decide (48 ≤ n ≤ 57) then Some (n - 48) else None.

Definition is_letter (c : ascii) : bool :=
  let n := Z.of_N (Ascii.N_of_ascii c) in
  bool_decide (65 ≤ n ≤ 90 ∨ 97 ≤ n ≤ 122 ∨ n = 95).

Definition is_blank (c : ascii) : bool :=
  bool_decide (c = " "%char).

Fixpoint tokenize (s : string) (p : partial) : option (list token) :=
  match s with
  | EmptyString => Some (flush p)
  | String c s' =>
      match digit_of c with
      | Some d =>
          match p with
          | PNone => tokenize s' (PNum d)
          | PNum n => tokenize s' (PNum (10 * n + d))
          | PName t => tokenize s' (PName (t +:+ String c EmptyString))
          end
      | None =>
          if is_letter c then
            match p with
            | PNone => tokenize s' (PName (String c EmptyString))
            | PNum _ => None
            | PName t => tokenize s' (PName (t +:+ String c EmptyString))
            end
          else
            (flush p ++.) <$>
            (if is_blank c then tokenize s' PNone
             else if decide (c = "+"%char) then (TPlus ::.) <$> tokenize s' PNone
             else if decide (c = "-"%char) then (TMinus ::.) <$> tokenize s' PNone
             else if decide (c = "/"%char) then (TSlash ::.) <$> tokenize s' PNone
             else if decide (c = "("%char) then (TLpar ::.) <$> tokenize s' PNone
             else if decide (c = ")"%char) then (TRpar ::.) <$> tokenize s' PNone
             else if decide (c = "*"%char) then
               match s' with
               | String "*"%char s'' => (TPow ::.) <$> tokenize s'' PNone
               | _ => (TStar ::.) <$> tokenize s' PNone
               end
             else None)
      end
  end.

(** The functions the parser knows by name. *)
Definition apply_function (f : string) (a : expr) : option expr :=
  if decide (f = "sqrt"%string) then Some (sqrt a)
  else if decide (f = "log"%string) then Some (log a)
  else if decide (f = "exp"%string) then Some (exp a)
  else None.

(** Python's grammar of arithmetic expressions:
    arith ::= term (("+" | "-") term)...
    term ::= factor (("*" | "/") factor)...
    factor ::= ("+" | "-") factor | power
    power ::= atom ["**" factor]
    atom ::= NUMBER | NAME | NAME "(" arith ")" | "(" arith ")"
    Each operator is applied as it is read, as evaluating the string does. *)
Fixpoint parse_arith (fuel : nat) (ts : list token) : option (expr * list token) :=
  match fuel with
  | O => None
  | S k => '(a, r) ← parse_term k ts; parse_arith_rest k a r
  end
with parse_arith_rest (fuel : nat) (acc : expr) (ts : list token)
    : option (expr * list token) :=
  match fuel with
  | O => None
  | S k =>
      match ts with
      | TPlus :: r => '(b, r') ← parse_term k r; parse_arith_rest k (add [acc; b]) r'
      | TMinus :: r => '(b, r') ← parse_term k r; parse_arith_rest k (sub acc b) r'
      | _ => Some (acc, ts)
      end
  end
with parse_term (fuel : nat) (ts : list token) : option (expr * list token) :=
  match fuel with
  | O => None
  | S k => '(a, r) ← parse_factor k ts; parse_term_rest k a r
  end
with parse_term_rest (fuel : nat) (acc : expr) (ts : list token)
    : option (expr * list token) :=
  match fuel with
  | O => None
  | S k =>
      match ts with
      | TStar :: r => '(b, r') ← parse_factor k r; parse_term_rest k (mul [acc; b]) r'
      | TSlash :: r => '(b, r') ← parse_factor k r; parse_term_rest k (div acc b) r'
      | _ => Some (acc, ts)
      end
  end
with parse_factor (fuel : nat) (ts : list token) : option (expr * list token) :=
  match fuel with
  | O => None
  | S k =>
      match ts with
      | TPlus :: r => parse_factor k r
      | TMinus :: r => '(a, r') ← parse_factor k r; Some (neg a, r')
      | _ => parse_power k ts
      end
  end
with parse_power (fuel : nat) (ts : list token) : option (expr * list token) :=
  match fuel with
  | O => None
  | S k =>
      '(b, r) ← parse_atom k ts;
      match r with
      | TPow :: r' => '(e, r'') ← parse_factor k r'; Some (pow b e, r'')
      | _ => Some (b, r)
      end
  end
with parse_atom (fuel : nat) (ts : list token) : option (expr * list token) :=
  match fuel with
  | O => None
  | S k =>
      match ts with
      | TNum n :: r => Some (Rational (inject_Z n), r)
      | TName f :: TLpar :: r =>
          '(a, r') ← parse_arith k r;
          match r' with
          | TRpar :: r'' => e ← apply_function f a; Some (e, r'')
          | _ => None
          end
      | TName s :: r => Some (Symbol s, r)
      | TLpar :: r =>
          '(a, r') ← parse_arith k r;
          match r' with
          | TRpar :: r'' => Some (a, r'')
          | _ => None
          end
      | _ => None
      end
  end.

Definition parse (s : string) : option expr :=
  ts ← tokenize s PNone;
  '(e, r) ← parse_arith (8 * S (length ts)) ts;
  match r with [] => Some e | _ => None end.

Definition parse_expr (s : string) : result expr :=
  match parse s with
  | Some e => Return e
  | None => Raise SyntaxError
  end.

(** *** Numeric evaluation *)

(** The real value of [r**y], where [x] is the exponent as written: an
    integer power is defined except at a pole, another one on positive
    bases and, for a positive exponent, at zero.  Anything else is complex
    or infinite. *)
Definition real_pow (r : R) (x : expr) (y : R) : option R :=
  match is_integer x with
  | Some n =>
      if decide (n < 0) then
        if Req_dec_T r 0 then None else Some (powerRZ r n)
      else Some (powerRZ r n)
  | None =>
      if Rlt_dec 0 r then Some (Rpower r y)
      else if Req_dec_T r 0 then
        if Rlt_dec 0 y then Some 0%R else None
      else None
  end.

(** The real value of an expression under [env], if it has one. *)
Fixpoint value (env : string → option R) (e : expr) : option R :=
  match e with
  | Symbol s => env s
  | Rational q => Some (Q2R q)
  | Float x => Some x
  | Pow b x => r ← value env b; y ← value env x; real_pow r x y
  | Log a => r ← value env a; if Rlt_dec 0 r then Some (ln r) else None
  | Exp a => Rtrigo_def.exp <$> value env a
  | Mul fs =>
      (fix go (fs : list expr) : option R :=
         match fs with
         | [] => Some 1%R
         | f :: fs' => r ← value env f; s ← go fs'; Some (r * s)%R
         end) fs
  | Add ts =>
      (fix go (ts : list expr) : option R :=
         match ts with
         | [] => Some 0%R
         | t :: ts' => r ← value env t; s ← go ts'; Some (r + s)%R
         end) ts
  end.

(** [float(e)]: a free symbol, or a number that is not real, cannot be
    converted. *)
Definition float (e : expr) : result R :=
  match value (λ _, None) e with
  | Some r => Return r
  | None => Raise TypeError
  end.

(** Two expressions are equivalent when they have the same value, or none,
    wherever their symbols are given real values. *)
Definition equivalent (e1 e2 : expr) : Prop :=
  ∀ env : string → R, value (Some ∘ env) e1 = value (Some ∘ env) e2.

(** *** Substitution *)

(** [sympify(o)] *)
Definition sympify (o : pyobj expr) : result expr :=
  match o with
  | PyExpr e => Return e
  | PyFloat x => Return (Float x)
  | PyStr s => match parse s with
               | Some e => Return e
               | None => Raise SympifyError
               end
  | PyNone => Raise SympifyError
  end.

Fixpoint lookup_symbol (d : list (string * expr)) (s : string) : option expr :=
  match d with
  | [] => None
  | (k, v) :: d' => if String.eqb k s then Some v else lookup_symbol d' s
  end.

(** The symbols bound by [d] are replaced, all at once, and the expression
    is rebuilt from the leaves. *)
Fixpoint subst (d : list (string * expr)) (e : expr) : expr :=
  match e with
  | Symbol s => default e (lookup_symbol d s)
  | Rational _ | Float _ => e
  | Pow b x => pow (subst d b) (subst d x)
  | Log a => log (subst d a)
  | Exp a => exp (subst d a)
  | Mul fs => mul (subst d <$> fs)
  | Add ts => add (subst d <$> ts)
  end.

(** The symbols that [d] binds to floats. *)
Definition floats (d : list (string * expr)) (s : string) : option R :=
  match lookup_symbol d s with
  | Some (Float x) => Some x
  | _ => None
  end.

Fixpoint free_symbols (e : expr) : list string :=
  match e with
  | Symbol s => [s]
  | Rational _ | Float _ => []
  | Pow b x => free_symbols b ++ free_symbols x
  | Log a | Exp a => free_symbols a
  | Mul l | Add l =>
      (fix go (l : list expr) : list string :=
         match l with
         | [] => []
         | a :: l' => free_symbols a ++ go l'
         end) l
  end.

(** [e.subs(d)]: an expression whose symbols are all replaced by floats is
    evaluated at once, to a float when its value is real. *)
Definition subs (e : expr) (d : list (string * pyobj expr)) : result expr :=
  d' ← mapM (λ kv, (kv.1,.) <$> sympify kv.2) d;
  mret (match free_symbols e, value (floats d') e with
        | _ :: _, Some r => Float r
        | _, _ => subst d' e
        end).

(** *** Printing *)

Definition print_Q (q : Q) : string :=
  if decide (Qden q = 1%positive) then pretty (Qnum q)
  else pretty (Qnum q) +:+ "/" +:+ pretty (Zpos (Qden q)).

Definition is_atom (e : expr) : bool :=
  match e with
  | Symbol _ | Log _ | Exp _ => true
  | Rational q => bool_decide (Qden q = 1%positive ∧ 0 ≤ Qnum q)
  | _ => false
  end.

Definition parens (s : string) : string := "(" +:+ s +:+ ")".

Definition join (sep : string) (l : list string) : string :=
  match l with
  | [] => ""
  | s :: l' => foldl (λ acc t, acc +:+ sep +:+ t) s l'
  end.

(** [str(e)], in a plain layout: powers as [b**x], products and sums with
    their arguments in canonical order.  The digits of a float are not
    part of the model. *)
Fixpoint print (e : expr) : string :=
  let arg e := if is_atom e then print e else parens (print e) in
  match e with
  | Symbol s => s
  | Rational q => print_Q q
  | Float _ => "<float>"
  | Pow b x => arg b +:+ "**" +:+ arg x
  | Log a => "log" +:+ parens (print a)
  | Exp a => "exp" +:+ parens (print a)
  | Mul fs => join "*" (arg <$> fs)
  | Add ts => join " + " (print <$> ts)
  end.

Definition braces (s : string) : string := "{" +:+ s +:+ "}".

(** [latex(e)], in a plain layout. *)
Fixpoint print_latex (e : expr) : string :=
  let arg e := if is_atom e then print_latex e
               else "\left(" +:+ print_latex e +:+ "\right)" in
  match e with
  | Symbol s => s
  | Rational q =>
      if decide (Qden q = 1%positive) then pretty (Qnum q)
      else "\frac" +:+ braces (pretty (Qnum q))
                   +:+ braces (pretty (Zpos (Qden q)))
  | Float _ => "<float>"
  | Pow b x => arg b +:+ "^" +:+ braces (print_latex x)
  | Log a => "\log" +:+ braces ("\left(" +:+ print_latex a +:+ "\right)")
  | Exp a => "e^" +:+ braces (print_latex a)
  | Mul fs => join " " (arg <$> fs)
  | Add ts => join " + " (print_latex <$> ts)
  end.

(** *** The engine *)

(** The engine with the renderers [str] and [latex]. *)
Definition sympy_rendering (order : SetOrder expr)
    (str latex : expr → result string) : SymPy :=
  Build_SymPy expr expr_eq
    parse_expr
    subs
    (λ a b, mul [a; b])
    (Float 1)
    float
    str
    latex
    order.

Definition sympy (order : SetOrder expr) : SymPy :=
  sympy_rendering order (λ e, Return (print e)) (λ e, Return (print_latex e)).

(** The order in which the elements went into the set: one of the orders a
    set can be iterated in. *)
Definition insertion_order : SetOrder expr :=
  {| set_iter := λ l, l; set_iter_perm := λ l, reflexivity l |}.

(** *** Substituting floats *)

(** The bindings of [l] as [subs] takes them, and as an environment. *)
Definition float_items (l : list (string * R)) : list (string * pyobj expr) :=
  (λ kv, (kv.1, PyFloat kv.2)) <$> l.
Definition float_env (l : list (string * R)) : string → option R :=
  floats ((λ kv, (kv.1, Float kv.2)) <$> l).

(** *** The expressions of the examples *)

Definition x0 : expr := Symbol "x0".
Definition x1 : expr := Symbol "x1".
Definition inv (e : expr) : expr := Pow e (Rational (-1)).

(** [x0*x1], [x0/x1], [x1/x0], [1/(x0*x1)] *)
Definition products : list expr :=
  [Mul [x0; x1]; Mul [x0; inv x1]; Mul [x1; inv x0]; Mul [inv x0; inv x1]].

Definition at_2_3 : list (string * R) :=
  [("x0"%string, 2%R); ("x1"%string, 3%R)].

(** The default expressions without the identity, and their values
    at 2. *)
Definition default_table : list expr :=
  [inv x0; Pow x0 (Rational (1 # 2)); Pow x0 (Rational (-1 # 2));
   Pow x0 (Rational 2); Pow x0 (Rational (-2));
   Pow x0 (Rational 3); Pow x0 (Rational (-3));
   Log x0; inv (Log x0); Exp x0; Exp (Mul [Rational (-1); x0])].

Definition default_values_at_2 : list R :=
  [1 / 2; R_sqrt.sqrt 2; / R_sqrt.sqrt 2; 4; 1 / 4; 8; 1 / 8;
   ln 2; / ln 2; Rtrigo_def.exp 2; Rtrigo_def.exp (- 2)]%R.

(** [x*(x + 1)] and [x**2 + x], over [x0] *)
Definition factored : expr := Mul [x0; Add [Rational 1; x0]].
Definition expanded : expr := Add [x0; Pow x0 (Rational 2)].

End Model.

(* ================================================================== *)
(** ** Example featurizers                                             *)
(* ================================================================== *)

Module Examples.

(** The model of the engine, its sets iterated in insertion order. *)
Abbreviation engine := (Model.sympy Model.insertion_order).

(** The same with renderers that fail: [str] with a ValueError, [latex]
    with a RecursionError. *)
Abbreviation failing_renderers :=
  (Model.sympy_rendering Model.insertion_order
     (λ _, Raise ValueError) (λ _, Raise RecursionError)).

(** [FunctionFeaturizer(["x", "1/x"], multi_feature_depth=2)] *)
Definition x_and_inverse (E : SymPy) (x0_inverse : list Expr)
    (products : list Expr) : FunctionFeaturizer :=
  {| expressions := ["x"; "1/x"]%string;
     multi_feature_depth := 2;
     combo_function := np_prod;
     exp_dict := list_to_map [(1, x0_inverse); (2, products)] |}.

(** [FunctionFeaturizer(["1/x", "x**2"])] *)
Definition inverse_and_square (E : SymPy) (table : list Expr)
    : FunctionFeaturizer :=
  {| expressions := ["1/x"; "x**2"]%string;
     multi_feature_depth := 1;
     combo_function := np_prod;
     exp_dict := list_to_map [(1, table)] |}.

End Examples.

(* ================================================================== *)
(** ** Counting and the steps of the table's construction             *)
(* ================================================================== *)

(** The number of ways to choose [r] positions out of [n]. *)
Fixpoint choose (n r : nat) : nat :=
  match n, r with
  | _, O => 1
  | O, S _ => 0
  | S n', S r' => choose n' r' + choose n' r
  end.

Section Construction.
Context `{SymPy}.

(** [exp.subs({"x": "x{}".format(n)})]: the variable renamed to slot [n]. *)
Definition rename (n : Z) (e : Expr) : result Expr :=
  subs e [("x"%string, PyStr (x_ n))].

(** The number of values that [featurize] and [feature_labels] give for
    [nargs] arguments: at each depth, one for every argument combination
    and every expression of the table. *)
Definition output_count (self : FunctionFeaturizer) (nargs : nat) : nat :=
  sum_list ((λ n, choose nargs (Z.to_nat n) * length (table self n))%nat
              <$> range 1 (multi_feature_depth self + 1)).

(** The outputs of the innermost loop of [_exp_iter], for one argument
    combination at depth [n]: the table is looked up, then each of its
    expressions is evaluated. *)
Definition outputs_of_combo (self : FunctionFeaturizer)
    (postprocess : Expr → result PyObj) (n : Z) (arg_combo : list PyObj)
    : result (list PyObj) :=
  exps ← getitem (exp_dict self) n;
  mapM (λ exp, recovered (subs exp (bind_slots arg_combo) ≫= postprocess)) exps.

(** The outputs of one round of the outermost loop. *)
Definition outputs_at_depth (self : FunctionFeaturizer) (args : list PyObj)
    (postprocess : Expr → result PyObj) (n : Z) : result (list PyObj) :=
  mjoin <$> mapM (outputs_of_combo self postprocess n)
                 (itertools.combinations args (Z.to_nat n)).

(** One base expression for each slot, each renamed to its slot: what a
    pick of one expression per array of [all_arrays] is. *)
Definition renamed_bases (combo_depth : Z) (bases : list Expr)
    : result (list Expr) :=
  mapM (λ nb, rename nb.1 nb.2) (zip (range 0 combo_depth) bases).
End Construction.

(* ================================================================== *)
(** ** Tactics                                                         *)
(* ================================================================== *)

(** Symbolic computation that leaves the real numbers alone. *)
Ltac sym_compute :=
  lazy -[IZR Rplus Rmult Rinv Ropp Rminus Rdiv Rlt_dec Req_dec_T Rpower ln
         Rtrigo_def.exp R_sqrt.sqrt powerRZ Q2R].

(** Settle the comparisons of real constants that [lra] decides. *)
Ltac decide_reals :=
  repeat match goal with
  | |- context [Req_dec_T ?a ?b] => destruct (Req_dec_T a b); [try lra|try lra]
  | |- context [Rlt_dec ?a ?b] => destruct (Rlt_dec a b); [try lra|try lra]
  end.

(* ================================================================== *)
(** ** Results and generators                                          *)
(* ================================================================== *)

Lemma result_bind_Return {A B} (a : A) (k : A → result B) : Return a ≫= k = k a.
Proof. reflexivity. Qed.

Section ResultFacts.
Context {A B : Type}.
Implicit Types (f : A → result B) (l : list A).

Lemma mapM_result_cons f x l :
  mapM f (x :: l) = y ← f x; k ← mapM f l; mret (y :: k).
Proof. reflexivity. Qed.

Lemma mapM_result_app f l1 l2 :
  mapM f (l1 ++ l2) = k1 ← mapM f l1; k2 ← mapM f l2; mret (k1 ++ k2).
Proof.
  induction l1 as [|x l1 IH]; simpl.
  - by destruct (mapM f l2).
  - destruct (f x) as [y|c]; simpl; [|done].
    rewrite IH. destruct (mapM f l1); simpl; [|done].
    by destruct (mapM f l2).
Qed.

(** A traversal returns when every element does, and then position by
    position. *)
Lemma mapM_result_Return f l k :
  mapM f l = Return k ↔ Forall2 (λ x y, f x = Return y) l k.
Proof.
  split.
  - revert k. induction l as [|x l IH]; intros k; simpl.
    + intros [= <-]. constructor.
    + destruct (f x) as [y|c] eqn:Hx; simpl; [|done].
      destruct (mapM f l) as [k'|c] eqn:Hl; simpl; [|done].
      intros [= <-]. constructor; [done|]. by apply IH.
  - induction 1 as [|x y l k Hx _ IH]; simpl; [done|].
    by rewrite Hx, IH.
Qed.

(** It raises the exception of the first element that does. *)
Lemma mapM_result_Raise f l c :
  mapM f l = Raise c ↔
  ∃ i x, l !! i = Some x ∧ f x = Raise c ∧
         ∀ j z, (j < i)%nat → l !! j = Some z → ∃ y, f z = Return y.
Proof.
  induction l as [|x l IH]; simpl.
  - split; [done|]. intros (i & z & Hi & _). by destruct i.
  - destruct (f x) as [y|c'] eqn:Hx; simpl.
    + transitivity (mapM f l = Raise c).
      { destruct (mapM f l); split; intros [=]; by subst. }
      rewrite IH. split.
      * intros (i & z & Hi & Hz & Hlt). exists (S i), z.
        split_and!; [done..|].
        intros [|j] w ? Hw; simplify_eq/=; [eauto|].
        eapply Hlt; [|done]. lia.
      * intros (i & z & Hi & Hz & Hlt).
        destruct i as [|i]; simpl in *; [congruence|].
        exists i, z. split_and!; [done..|].
        intros j w ??. apply (Hlt (S j)); [lia|done].
    + split.
      * intros [= ->]. exists 0%nat, x. split_and!; [done..|]. intros; lia.
      * intros (i & z & Hi & Hz & Hlt).
        destruct i as [|i]; simpl in *; [congruence|].
        destruct (Hlt 0%nat x) as [? ?]; [lia|done|congruence].
Qed.
End ResultFacts.

Lemma mapM_result_fmap {A B C} (g : A → B) (f : B → result C) (l : list A) :
  mapM f (g <$> l) = mapM (f ∘ g) l.
Proof.
  induction l as [|x l IH]; [done|].
  by rewrite fmap_cons, !mapM_result_cons, IH.
Qed.

Lemma mapM_result_ext {A B} (f g : A → result B) (l : list A) :
  (∀ x, x ∈ l → f x = g x) → mapM f l = mapM g l.
Proof.
  induction l as [|x l IH]; intros Hfg; [done|].
  rewrite !mapM_result_cons, Hfg, IH; [done| |left]. intros; apply Hfg. by right.
Qed.

(** Traversing the concatenation of the lists [g x]. *)
Lemma mapM_result_bind {A B C} (g : A → list B) (f : B → result C) (l : list A) :
  mapM f (l ≫= g) = mjoin <$> mapM (λ x, mapM f (g x)) l.
Proof.
  induction l as [|x l IH]; [done|].
  rewrite bind_cons, mapM_result_app, IH, mapM_result_cons.
  destruct (mapM f (g x)); simpl; [|done].
  by destruct (mapM _ l).
Qed.

Lemma mapM_result_length {A B} (f : A → result B) l k :
  mapM f l = Return k → length k = length l.
Proof. intros Hk%mapM_result_Return. symmetry. by eapply Forall2_length. Qed.

Section GenFacts.
Context {Y : Type}.
Implicit Types (g : gen Y ()).

Lemma list_bind g (k : gen Y ()) :
  list_ (g ≫= λ _, k) = ys ← list_ g; zs ← list_ k; mret (ys ++ zs).
Proof.
  unfold list_, mbind, gen_bind.
  destruct g as [ys [[]|c]], k as [zs [[]|c']]; simpl; done.
Qed.

(** A loop yields, in order, what its passes yield. *)
Lemma list_for_ {X} (xs : list X) (body : X → gen Y ()) :
  list_ (for_ xs body) = mjoin <$> mapM (λ x, list_ (body x)) xs.
Proof.
  induction xs as [|x xs IH]; [done|].
  cbn [for_]. rewrite list_bind, IH, mapM_result_cons.
  destruct (list_ (body x)); simpl; [|done].
  by destruct (mapM _ xs).
Qed.

Lemma list_eval_bind {A} (r : result A) (k : A → gen Y ()) :
  list_ (eval r ≫= k) = r ≫= λ a, list_ (k a).
Proof.
  unfold list_, mbind at 1, gen_bind. destruct r as [a|c]; simpl; [|done].
  by destruct (k a) as [ys [[]|?]].
Qed.
End GenFacts.

(* ================================================================== *)
(** ** Combinations                                                    *)
(* ================================================================== *)

Section Combinations.
Context {A : Type}.
Implicit Types (l : list A) (pool t : list nat).

Lemma combinations_cons x l r :
  itertools.combinations (x :: l) (S r) =
  ((x ::.) <$> itertools.combinations l r) ++ itertools.combinations l (S r).
Proof. reflexivity. Qed.

(** Selecting by the combinations of the positions gives the
    combinations of the elements. *)
Lemma combinations_select_from pre l r :
  select (pre ++ l) <$> itertools.combinations (seq (length pre) (length l)) r
  = itertools.combinations l r.
Proof.
  revert pre r. induction l as [|x l IH]; intros pre [|r]; simpl; try done.
  rewrite fmap_app, <-!list_fmap_compose. f_equal.
  - rewrite <-(IH (pre ++ [x]) r), <-list_fmap_compose, <-!app_assoc.
    rewrite length_app; simpl. rewrite Nat.add_1_r.
    apply list_fmap_ext; intros _ t _; simpl. unfold select; simpl.
    by rewrite list_lookup_middle.
  - rewrite <-(IH (pre ++ [x]) (S r)), <-!app_assoc.
    rewrite length_app; simpl. by rewrite Nat.add_1_r.
Qed.

Lemma combinations_select l r :
  itertools.combinations l r =
  select l <$> itertools.combinations (seq 0 (length l)) r.
Proof. symmetry. apply (combinations_select_from [] l r). Qed.
End Combinations.

Section FilterFacts.
Context {A : Type} (P Q : A → Prop) `{!∀ x, Decision (P x), !∀ x, Decision (Q x)}.

Lemma filter_all l : Forall P l → filter P l = l.
Proof.
  induction 1 as [|x l ? _ IH]; [done|]. by rewrite filter_cons_True, IH.
Qed.

Lemma filter_none l : Forall (λ x, ¬ P x) l → filter P l = [].
Proof.
  induction 1 as [|x l ? _ IH]; [done|]. by rewrite filter_cons_False.
Qed.

Lemma filter_iff_on l : Forall (λ x, P x ↔ Q x) l → filter P l = filter Q l.
Proof.
  induction 1 as [|x l HPQ _ IH]; [done|].
  rewrite !filter_cons, IH. destruct (decide (P x)), (decide (Q x)); tauto.
Qed.
End FilterFacts.

Lemma filter_fmap {A B} (f : A → B) (P : B → Prop) `{!∀ y, Decision (P y)}
    (l : list A) :
  filter P (f <$> l) = f <$> filter (P ∘ f) l.
Proof.
  induction l as [|x l IH]; [done|].
  rewrite fmap_cons, !filter_cons, IH; simpl. by destruct (decide (P (f x))).
Qed.

Lemma filter_bind {A B} (f : A → list B) (P : B → Prop) `{!∀ y, Decision (P y)}
    (l : list A) :
  filter P (l ≫= f) = l ≫= λ x, filter P (f x).
Proof.
  induction l as [|x l IH]; [done|].
  by rewrite !bind_cons, filter_app, IH.
Qed.

Lemma bind_filter {A B} (f : A → list B) (P : A → Prop) `{!∀ x, Decision (P x)}
    (l : list A) :
  filter P l ≫= f = l ≫= λ x, if decide (P x) then f x else [].
Proof.
  induction l as [|x l IH]; [done|].
  rewrite filter_cons, bind_cons, <-IH. by destruct (decide (P x)).
Qed.

Lemma index_tuples_elem n pool t :
  t ∈ index_tuples n pool → length t = n ∧ Forall (.∈ pool) t.
Proof.
  revert t. induction n as [|n IH]; intros t; simpl.
  - intros ->%list_elem_of_singleton. by split.
  - intros (i & (t' & -> & Ht')%list_elem_of_fmap & Hi)%list_elem_of_bind.
    destruct (IH _ Ht') as [<- ?]. split; [done|]. by constructor.
Qed.

Lemma increasing_from_cons a i t :
  increasing_from a (i :: t) ↔ (a < i)%nat ∧ increasing_from i t.
Proof. simpl. by rewrite andb_True, bool_decide_spec. Qed.

Lemma filter_increasing_from_cons a i (T : list (list nat)) :
  filter ((λ t, Is_true (increasing_from a t)) ∘ (i ::.)) T =
  if decide (a < i)%nat then filter (increasing_from i) T else [].
Proof.
  destruct (decide (a < i)%nat).
  - apply list_filter_iff. intros t; unfold compose.
    rewrite increasing_from_cons. tauto.
  - apply filter_none, Forall_forall. intros t _; unfold compose.
    rewrite increasing_from_cons. tauto.
Qed.

(** Only the indices above [a] can follow [a] in an increasing tuple. *)
Lemma filter_increasing_from a n pool :
  filter (increasing_from a) (index_tuples n pool) =
  filter (increasing_from a) (index_tuples n (filter (λ i, a < i)%nat pool)).
Proof.
  revert a pool. induction n as [|n IH]; intros a pool; [done|].
  cbn [index_tuples]. rewrite bind_filter, !filter_bind.
  apply list_bind_ext; [|done]. intros i.
  rewrite filter_fmap, filter_increasing_from_cons.
  destruct (decide (a < i)%nat) as [Hai|Hai]; [|done].
  rewrite filter_fmap, filter_increasing_from_cons, decide_True by done.
  rewrite (IH i pool), (IH i (filter (λ j, a < j)%nat pool)).
  do 3 f_equal. rewrite list_filter_filter.
  apply list_filter_iff. intros j; simpl. lia.
Qed.

Lemma increasing_from_below a t :
  Forall (λ i, a < i)%nat t → increasing_from a t ↔ increasing t.
Proof.
  destruct t as [|i t]; [done|]. intros [? _]%Forall_cons.
  rewrite increasing_from_cons. simpl. tauto.
Qed.

(** The increasing tuples over a sorted pool are its combinations. *)
Lemma filter_increasing_combinations n pool :
  StronglySorted lt pool →
  filter increasing (index_tuples n pool) = itertools.combinations pool n.
Proof.
  intros Hpool. revert n.
  induction Hpool as [|p ps Hps IH Hp]; intros [|n]; try done.
  cbn [index_tuples]. rewrite bind_cons, filter_app, combinations_cons.
  assert (∀ i, (p ≤ i)%nat → filter (λ j, i < j)%nat (p :: ps)
                            = filter (λ j, i < j)%nat ps) as Hdrop.
  { intros i ?. by rewrite filter_cons_False by lia. }
  f_equal.
  - rewrite filter_fmap, <-IH. f_equal.
    change ((λ t, Is_true (increasing t)) ∘ (p ::.))
      with (λ t, Is_true (increasing_from p t)).
    rewrite filter_increasing_from, Hdrop by done.
    rewrite (filter_all (λ j, p < j)%nat) by done.
    apply (filter_iff_on (λ t, Is_true (increasing_from p t))
                         (λ t, Is_true (increasing t))).
    apply Forall_forall. intros t [_ Ht]%index_tuples_elem.
    apply increasing_from_below.
    eapply Forall_impl; [exact Ht|]. intros i Hi; simpl.
    by eapply Forall_forall in Hp.
  - rewrite <-IH. cbn [index_tuples]. rewrite !filter_bind.
    apply Forall_bind_ext. eapply Forall_impl; [exact Hp|]. intros i Hi; simpl.
    rewrite !filter_fmap. f_equal.
    change ((λ t, Is_true (increasing t)) ∘ (i ::.))
      with (λ t, Is_true (increasing_from i t)).
    rewrite filter_increasing_from, Hdrop by lia.
    by rewrite <-filter_increasing_from.
Qed.

Lemma StronglySorted_seq a n : StronglySorted lt (seq a n).
Proof.
  revert a. induction n as [|n IH]; intros a; simpl; constructor; [done|].
  apply Forall_forall. intros i [? _]%elem_of_seq. lia.
Qed.

(** [itertools.combinations] takes the selections of positions in
    combinatorial order. *)
Lemma combinations_index_combinations {A} (l : list A) (r : nat) :
  itertools.combinations l r = select l <$> index_combinations r (length l).
Proof.
  rewrite combinations_select. unfold index_combinations.
  by rewrite filter_increasing_combinations by apply StronglySorted_seq.
Qed.

Lemma elem_of_index_tuples n pool t :
  t ∈ index_tuples n pool ↔ length t = n ∧ Forall (.∈ pool) t.
Proof.
  split; [apply index_tuples_elem|].
  revert t. induction n as [|n IH]; intros t [Hlen Ht].
  - destruct t; [|done]. by apply list_elem_of_singleton.
  - destruct t as [|i t]; [done|]. apply Forall_cons in Ht as [Hi Ht].
    cbn [index_tuples]. apply list_elem_of_bind. exists i. split; [|done].
    apply list_elem_of_fmap_2, IH. split; [|done]. simpl in Hlen; lia.
Qed.

(** The index combinations are the increasing tuples of positions. *)
Lemma elem_of_index_combinations n len t :
  t ∈ index_combinations n len ↔
  length t = n ∧ increasing t ∧ Forall (λ i, i < len)%nat t.
Proof.
  unfold index_combinations.
  rewrite list_elem_of_filter, elem_of_index_tuples.
  assert (Forall (.∈ seq 0 len) t ↔ Forall (λ i, i < len)%nat t) as ->.
  { apply Forall_proper; [|done]. intros i. rewrite elem_of_seq. lia. }
  tauto.
Qed.

Lemma StronglySorted_filter {A} (R : relation A) (P : A → Prop)
    `{!∀ x, Decision (P x)} (l : list A) :
  StronglySorted R l → StronglySorted R (filter P l).
Proof.
  induction 1 as [|x l _ IH Hx]; [constructor|].
  rewrite filter_cons. destruct (decide (P x)); [|done].
  constructor; [done|]. apply Forall_forall.
  intros y [_ Hy]%list_elem_of_filter. by eapply Forall_forall in Hx.
Qed.

Lemma index_tuples_sorted n pool :
  StronglySorted lt pool → StronglySorted lex_lt (index_tuples n pool).
Proof.
  intros Hpool. induction n as [|n IH]; [repeat constructor|].
  cbn [index_tuples]. generalize (index_tuples n pool) IH. intros T HT.
  clear IH. induction Hpool as [|p ps _ IHps Hp]; [constructor|].
  rewrite bind_cons. apply StronglySorted_app_2; [| |done].
  - intros s t (s' & -> & _)%list_elem_of_fmap
      (i & (t' & -> & _)%list_elem_of_fmap & Hi)%list_elem_of_bind.
    apply lex_lt_head. by eapply Forall_forall in Hp.
  - eapply StronglySorted_fmap; [|done]. intros s t. apply lex_lt_tail.
Qed.

(** They are listed in lexicographic order. *)
Lemma index_combinations_sorted n len :
  StronglySorted lex_lt (index_combinations n len).
Proof.
  apply StronglySorted_filter, index_tuples_sorted, StronglySorted_seq.
Qed.

(* ================================================================== *)
(** ** The substitution engine                                         *)
(* ================================================================== *)

Lemma elem_of_range n a b : n ∈ range a b ↔ a ≤ n < b.
Proof. unfold range. rewrite elem_of_seqZ. lia. Qed.

Section Engine.
Context `{SymPy}.
Implicit Types (self : FunctionFeaturizer) (args : list PyObj).
Implicit Types (post : Expr → result PyObj).

Lemma list_try_yield (r : result PyObj) :
  list_ (try_except (v ← eval r; yield v) [TypeError; ValueError] (yield PyNone))
  = (λ v, [v]) <$> recovered r.
Proof.
  destruct r as [v|c]; [done|].
  unfold try_except, recovered, handled.
  change (ending (eval (Raise c) ≫= λ v : PyObj, yield v)) with (@Raise () c).
  cbv beta iota.
  destruct (except_ [TypeError; ValueError] c); reflexivity.
Qed.

(** [list(self._exp_iter(...))] traverses the triples in their order. *)
Lemma list_exp_iter self args postprocess :
  complete self →
  list_ (_exp_iter self args postprocess) =
  mapM (λ t, recovered (evaluated args (postprocess_or_identity postprocess) t))
       (triples self (length args)).
Proof.
  intros Hself. unfold _exp_iter, triples.
  rewrite list_for_, mapM_result_bind. f_equal.
  apply mapM_result_ext. intros n [Hn1 Hn2]%elem_of_range.
  rewrite list_for_, combinations_index_combinations.
  rewrite mapM_result_fmap, mapM_result_bind. f_equal.
  apply mapM_result_ext. intros idxs _; unfold compose.
  rewrite list_eval_bind. unfold getitem, table.
  destruct (Hself n) as [tbl ->]; [lia|].
  rewrite result_bind_Return. change (default [] (Some tbl)) with tbl.
  rewrite list_for_, mapM_result_bind. f_equal.
  apply mapM_result_ext. intros e _. cbv beta.
  rewrite list_try_yield. unfold evaluated, bind_slots; simpl.
  by destruct (recovered _).
Qed.

(** What the constructor returns. *)
Lemma init_Return expressions depth combo_function self :
  __init__ expressions depth combo_function = Return self →
  multi_feature_depth self = depth ∧
  (∀ n, 1 ≤ n ≤ depth → ∃ exps,
     exp_dict self !! n = Some exps ∧
     generate_expressions_combinations
       (or_list expressions default_exps) n np_prod = Return exps) ∧
  (∀ n, ¬ 1 ≤ n ≤ depth → exp_dict self !! n = None).
Proof.
  unfold __init__.
  destruct (mapM _ (range 1 (depth + 1))) as [items|c] eqn:Hitems; [|done].
  intros [= <-]; simpl. split; [done|].
  apply mapM_result_Return in Hitems.
  assert (items.*1 = range 1 (depth + 1)) as Hkeys.
  { clear -Hitems. induction Hitems as [|n y ?? Hy _ IH]; [done|].
    rewrite fmap_cons, IH. f_equal.
    destruct (generate_expressions_combinations _ n _);
      [by injection Hy as <- | discriminate Hy]. }
  assert (NoDup items.*1) as Hnodup.
  { rewrite Hkeys. apply NoDup_seqZ. }
  split.
  - intros n Hn.
    assert (n ∈ range 1 (depth + 1)) as Hin by (apply elem_of_range; lia).
    apply list_elem_of_lookup in Hin as [i Hi].
    destruct (Forall2_lookup_l _ _ _ _ _ Hitems Hi) as (y & Hy & Hgen).
    destruct (generate_expressions_combinations _ n _) as [exps|] eqn:Hexps;
      [injection Hgen as <- | discriminate Hgen].
    exists exps. split; [|done].
    apply elem_of_list_to_map; [done|]. by eapply list_elem_of_lookup_2.
  - intros n Hn. apply not_elem_of_list_to_map.
    rewrite Hkeys, elem_of_range. lia.
Qed.

Lemma init_complete expressions depth combo_function self :
  __init__ expressions depth combo_function = Return self → complete self.
Proof.
  intros (Hd & Hsome & _)%init_Return n Hn. rewrite Hd in Hn.
  destruct (Hsome n Hn) as (exps & -> & _). by eexists.
Qed.

(** [featurize] and [feature_labels] traverse the triples. *)
Lemma featurize_triples self args postprocess :
  complete self →
  featurize self args postprocess =
  mapM (λ t, recovered (evaluated args (postprocess_or_identity postprocess) t))
       (triples self (length args)).
Proof. apply list_exp_iter. Qed.

Lemma feature_labels_triples self col_id latexify_labels :
  complete self →
  feature_labels self col_id latexify_labels =
  mapM (λ t, recovered (evaluated (PyStr <$> col_id) (render latexify_labels) t))
       (triples self (length col_id)).
Proof.
  intros Hself. unfold feature_labels.
  rewrite list_exp_iter by done. by rewrite length_fmap.
Qed.
End Engine.

(* ================================================================== *)
(** ** Properties of the substitution engine                           *)
(* ================================================================== *)

Section Claims.
Context `{SymPy}.
Implicit Types (self : FunctionFeaturizer) (args : list PyObj).
Implicit Types (values labels : list PyObj) (col_id : list string).

Lemma feature_labels_featurize self col_id latexify_labels :
  feature_labels self col_id latexify_labels =
  featurize self (PyStr <$> col_id) (Some (render latexify_labels)).
Proof. reflexivity. Qed.

(** The outputs of a call that returns, position by position. *)
Lemma featurize_Return self args postprocess values :
  complete self →
  featurize self args postprocess = Return values ↔
  Forall2 (λ t v, recovered (evaluated args (postprocess_or_identity postprocess) t)
                  = Return v)
          (triples self (length args)) values.
Proof. intros. by rewrite featurize_triples, mapM_result_Return. Qed.

Lemma recovered_Raise (r : result PyObj) c :
  recovered r = Raise c ↔ r = Raise c ∧ handled c = false.
Proof.
  unfold recovered. destruct r as [w|c']; [by split; [|intros []]|].
  destruct (handled c') eqn:Hc; split; try done.
  - intros [[= ->] ?]. congruence.
  - by intros [= ->].
  - by intros [[= ->] _].
Qed.

(** ** C8 *)

(** C8: [featurize] and [feature_labels] produce their outputs in the
    nested order of [triples]: depth ascending from 1 to
    [multi_feature_depth], then the argument combinations of that size in
    combinatorial order, then the table's expressions for that depth in
    table order.  The middle loop of the code, [itertools.combinations],
    visits the selections of positions [index_combinations] in their
    order; these are exactly the tuples of increasing positions (no
    repeat, no re-ordering), and they are listed lexicographically. *)
Theorem C8_nested_enumeration_order
    expressions depth combo_function self args postprocess col_id latexify_labels :
  __init__ expressions depth combo_function = Return self →
  featurize self args postprocess =
    mapM (λ t, recovered (evaluated args (postprocess_or_identity postprocess) t))
         (triples self (length args)) ∧
  feature_labels self col_id latexify_labels =
    mapM (λ t, recovered (evaluated (PyStr <$> col_id) (render latexify_labels) t))
         (triples self (length col_id)) ∧
  (∀ n, itertools.combinations args n
        = select args <$> index_combinations n (length args)) ∧
  (∀ n t, t ∈ index_combinations n (length args) ↔
          length t = n ∧ increasing t ∧ Forall (λ i, i < length args)%nat t) ∧
  (∀ n, StronglySorted lex_lt (index_combinations n (length args))).
Proof.
  intros Hself%init_complete. split_and!.
  - by apply featurize_triples.
  - by apply feature_labels_triples.
  - intros n. apply combinations_index_combinations.
  - intros n t. apply elem_of_index_combinations.
  - intros n. apply index_combinations_sorted.
Qed.

(** ** C1 *)

(** C1: when [featurize] on the arguments and [feature_labels] on as many
    column names both return, the two sequences have the same length, and
    at every position the value and the label come from the same (depth,
    argument combination, expression) triple. *)
Theorem C1_values_and_labels_correspond
    expressions depth combo_function self args col_id postprocess
    latexify_labels values labels :
  __init__ expressions depth combo_function = Return self →
  length args = length col_id →
  featurize self args postprocess = Return values →
  feature_labels self col_id latexify_labels = Return labels →
  length values = length labels ∧
  ∀ i, (i < length values)%nat →
    ∃ t v l,
      triples self (length args) !! i = Some t ∧
      values !! i = Some v ∧
      labels !! i = Some l ∧
      recovered (evaluated args (postprocess_or_identity postprocess) t)
        = Return v ∧
      recovered (evaluated (PyStr <$> col_id) (render latexify_labels) t)
        = Return l.
Proof.
  intros Hself%init_complete Hlen Hvalues Hlabels.
  rewrite feature_labels_featurize in Hlabels.
  apply featurize_Return in Hvalues, Hlabels; [|done..].
  rewrite length_fmap, <-Hlen in Hlabels.
  pose proof (Forall2_length _ _ _ Hvalues) as Hlv.
  pose proof (Forall2_length _ _ _ Hlabels) as Hll.
  split; [congruence|]. intros i Hi.
  destruct (lookup_lt_is_Some_2 (triples self (length args)) i) as [t Ht];
    [lia|].
  destruct (Forall2_lookup_l _ _ _ _ _ Hvalues Ht) as (v & Hv & ?).
  destruct (Forall2_lookup_l _ _ _ _ _ Hlabels Ht) as (l & Hl & ?).
  by exists t, v, l.
Qed.

(** A call returns exactly when no triple raises an exception that the
    handler lets through. *)
Lemma featurize_returns self args postprocess :
  complete self →
  (∀ t c, t ∈ triples self (length args) →
          evaluated args (postprocess_or_identity postprocess) t = Raise c →
          handled c = true) →
  ∃ values, featurize self args postprocess = Return values.
Proof.
  intros Hself Hok. rewrite featurize_triples by done.
  destruct (mapM _ _) as [values|c] eqn:Hrun; [by eexists|].
  apply mapM_result_Raise in Hrun as (i & t & Ht & [Hc Hun]%recovered_Raise & _).
  apply list_elem_of_lookup_2 in Ht. rewrite (Hok t c) in Hun; done.
Qed.

Lemma featurize_length self args postprocess values :
  complete self →
  featurize self args postprocess = Return values →
  length values = length (triples self (length args)).
Proof.
  intros Hself Hrun. rewrite featurize_triples in Hrun by done.
  by apply mapM_result_length in Hrun.
Qed.

(** ** C2 *)

(** C2: when substitution and postprocessing raise a TypeError or a
    ValueError (the type and numeric-domain errors) for the triple at
    position [i], and no other triple raises an exception of another
    class, [featurize] returns a sequence with [None] at position [i] and,
    at the position of every triple that has a value, this value: the
    error costs that one output and nothing else.  The length of the
    sequence is the number of triples, which is the length of any sequence
    [featurize] returns on these arguments, whatever the postprocessing
    function and whether or not it raised. *)
Theorem C2_error_recovered_at_its_position
    expressions depth combo_function self args postprocess i t c :
  __init__ expressions depth combo_function = Return self →
  triples self (length args) !! i = Some t →
  evaluated args (postprocess_or_identity postprocess) t = Raise c →
  handled c = true →
  (∀ j t' c', j ≠ i → triples self (length args) !! j = Some t' →
     evaluated args (postprocess_or_identity postprocess) t' = Raise c' →
     handled c' = true) →
  ∃ values,
    featurize self args postprocess = Return values ∧
    values !! i = Some PyNone ∧
    (∀ j t' v, triples self (length args) !! j = Some t' →
       evaluated args (postprocess_or_identity postprocess) t' = Return v →
       values !! j = Some v) ∧
    length values = length (triples self (length args)) ∧
    (∀ postprocess' values',
       featurize self args postprocess' = Return values' →
       length values' = length values).
Proof.
  intros Hself%init_complete Ht Hc Hhandled Hothers.
  destruct (featurize_returns self args postprocess) as [values Hrun]; [done| |].
  { intros t' c' [j Hj]%list_elem_of_lookup Hc'.
    destruct (decide (j = i)) as [->|Hji]; [congruence|].
    by eapply Hothers. }
  exists values. split; [done|].
  pose proof (featurize_length _ _ _ _ Hself Hrun) as Hlen.
  apply featurize_Return in Hrun; [|done].
  split_and!.
  - destruct (Forall2_lookup_l _ _ _ _ _ Hrun Ht) as (v & Hv & Hrec).
    rewrite Hc in Hrec. unfold recovered in Hrec. rewrite Hhandled in Hrec.
    congruence.
  - intros j t' v Hj Hv.
    destruct (Forall2_lookup_l _ _ _ _ _ Hrun Hj) as (v' & Hv' & Hrec).
    rewrite Hv in Hrec. simpl in Hrec. congruence.
  - done.
  - intros postprocess' values' Hrun'.
    apply featurize_length in Hrun'; [|done]. congruence.
Qed.

Lemma handled_iff c :
  handled c = true ↔
  issubclass c TypeError = true ∨ issubclass c ValueError = true.
Proof.
  unfold handled, except_; simpl. by rewrite orb_false_r, orb_true_iff.
Qed.

(** In a call that returns, a triple that raised did so with a handled
    exception and has [None] at its position. *)
Lemma featurize_Return_raised self args postprocess values i t c :
  complete self →
  featurize self args postprocess = Return values →
  triples self (length args) !! i = Some t →
  evaluated args (postprocess_or_identity postprocess) t = Raise c →
  handled c = true ∧ values !! i = Some PyNone.
Proof.
  intros Hself Hrun Ht Hc.
  apply featurize_Return in Hrun; [|done].
  destruct (Forall2_lookup_l _ _ _ _ _ Hrun Ht) as (v & Hv & Hrec).
  rewrite Hc in Hrec. unfold recovered in Hrec.
  destruct (handled c); by simplify_eq.
Qed.

(** An exception that is not handled leaves the call: the call raises the
    exception of the first triple that raises such an exception. *)
Lemma featurize_Raise self args postprocess i t c :
  complete self →
  triples self (length args) !! i = Some t →
  evaluated args (postprocess_or_identity postprocess) t = Raise c →
  handled c = false →
  ∃ i' t' c',
    (i' ≤ i)%nat ∧
    triples self (length args) !! i' = Some t' ∧
    evaluated args (postprocess_or_identity postprocess) t' = Raise c' ∧
    handled c' = false ∧
    featurize self args postprocess = Raise c'.
Proof.
  intros Hself Ht Hc Hun. rewrite featurize_triples by done.
  destruct (mapM _ _) as [values|c'] eqn:Hrun.
  - apply mapM_result_Return in Hrun.
    destruct (Forall2_lookup_l _ _ _ _ _ Hrun Ht) as (v & Hv & Hrec).
    rewrite Hc in Hrec. unfold recovered in Hrec. by rewrite Hun in Hrec.
  - apply mapM_result_Raise in Hrun
      as (i' & t' & Ht' & [Hc' Hun']%recovered_Raise & Hfirst).
    exists i', t', c'. split_and!; try done.
    destruct (decide (i' ≤ i)%nat) as [|Hlt]; [done|].
    destruct (Hfirst i t) as [v Hv]; [lia|done|].
    rewrite Hc in Hv. unfold recovered in Hv. by rewrite Hun in Hv.
Qed.

(** ** C10 *)

(** C10: the handler catches the instances of TypeError and ValueError and
    nothing else.  Whenever a call returns, every triple for which
    substitution or postprocessing raised did so with an exception of
    one of these two classes, and the output at its position is [None];
    an exception of any other class, such as OverflowError or
    ZeroDivisionError, makes the whole call raise (the exception of the
    first triple to raise such an exception), and no sequence is
    returned.  [feature_labels] is [featurize] on the column names with the
    renderer for postprocessing function, so the same holds of it. *)
Theorem C10_only_type_and_value_errors_recovered
    expressions depth combo_function self args postprocess :
  __init__ expressions depth combo_function = Return self →
  (∀ c, handled c = true ↔
        issubclass c TypeError = true ∨ issubclass c ValueError = true) ∧
  handled OverflowError = false ∧
  handled ZeroDivisionError = false ∧
  (∀ values i t c,
     featurize self args postprocess = Return values →
     triples self (length args) !! i = Some t →
     evaluated args (postprocess_or_identity postprocess) t = Raise c →
     handled c = true ∧ values !! i = Some PyNone) ∧
  (∀ i t c,
     triples self (length args) !! i = Some t →
     evaluated args (postprocess_or_identity postprocess) t = Raise c →
     handled c = false →
     ∃ i' t' c',
       (i' ≤ i)%nat ∧
       triples self (length args) !! i' = Some t' ∧
       evaluated args (postprocess_or_identity postprocess) t' = Raise c' ∧
       handled c' = false ∧
       featurize self args postprocess = Raise c') ∧
  (∀ col_id latexify_labels,
     feature_labels self col_id latexify_labels =
     featurize self (PyStr <$> col_id) (Some (render latexify_labels))).
Proof.
  intros Hself%init_complete. split_and!; [|done..| | |done].
  - apply handled_iff.
  - intros values i t c. by apply featurize_Return_raised.
  - intros i t c. by apply featurize_Raise.
Qed.

(** ** C7 *)

(** C7, as the code has it: rendering a label goes through the handler of
    the shared traversal like any postprocessing.  When the renderer
    raises for the triple at position [i], a TypeError or ValueError
    becomes [None] at position [i] of the labels a returning call gives,
    and the call does return if no other triple raises an exception the
    handler lets through; an exception of any other class makes the whole
    call raise. *)
Theorem C7_rendering_errors_go_through_the_handler
    expressions depth combo_function self col_id latexify_labels i t e c :
  __init__ expressions depth combo_function = Return self →
  triples self (length col_id) !! i = Some t →
  subs t.2 (bind_slots (select (PyStr <$> col_id) t.1.2)) = Return e →
  render latexify_labels e = Raise c →
  (handled c = true →
     (∀ labels, feature_labels self col_id latexify_labels = Return labels →
                labels !! i = Some PyNone) ∧
     ((∀ j t' c', j ≠ i → triples self (length col_id) !! j = Some t' →
         evaluated (PyStr <$> col_id) (render latexify_labels) t' = Raise c' →
         handled c' = true) →
      ∃ labels, feature_labels self col_id latexify_labels = Return labels)) ∧
  (handled c = false →
     ∃ c', feature_labels self col_id latexify_labels = Raise c'
           ∧ handled c' = false).
Proof.
  intros Hself%init_complete Ht He Hc.
  assert (evaluated (PyStr <$> col_id) (render latexify_labels) t = Raise c)
    as Hev by (unfold evaluated; by rewrite He).
  rewrite feature_labels_featurize.
  rewrite <-(length_fmap (@PyStr Expr) col_id) in Ht.
  split.
  - intros Hhandled. split.
    + intros labels Hrun.
      by eapply (featurize_Return_raised self (PyStr <$> col_id)).
    + intros Hothers. apply featurize_returns; [done|].
      intros t' c' [j Hj]%list_elem_of_lookup Hc'.
      destruct (decide (j = i)) as [->|Hji].
      * simpl in Hc'. congruence.
      * rewrite length_fmap in Hj. by eapply Hothers.
  - intros Hun.
    destruct (featurize_Raise self (PyStr <$> col_id)
                (Some (render latexify_labels)) i t c)
      as (_ & _ & c' & _ & _ & _ & ? & ?); [done..|].
    by exists c'.
Qed.

(** The constructor returns when every depth can be generated. *)
Lemma init_returns expressions depth combo_function :
  (∀ n, 1 ≤ n ≤ depth → ∃ exps,
     generate_expressions_combinations
       (or_list expressions default_exps) n np_prod = Return exps) →
  ∃ self, __init__ expressions depth combo_function = Return self.
Proof.
  intros Hgen. unfold __init__.
  destruct (mapM _ (range 1 (depth + 1))) as [items|c] eqn:Hitems;
    [by eexists|].
  apply mapM_result_Raise in Hitems as (i & n & Hn & Hc & _).
  apply list_elem_of_lookup_2, elem_of_range in Hn.
  destruct (Hgen n) as [exps Hexps]; [lia|]. by rewrite Hexps in Hc.
Qed.

(** ** C6 *)

Lemma range_empty a b : b ≤ a → range a b = [].
Proof. intros. unfold range. apply seqZ_nil. lia. Qed.

(** C6, as the code has it: the constructor does not check
    [multi_feature_depth].  A depth below 1 leaves nothing to generate:
    the constructor returns a featurizer with an empty table (no
    expression is even parsed), and [featurize] and [feature_labels] then
    return the empty sequence. *)
Theorem C6_depth_below_one_gives_an_empty_featurizer
    expressions depth combo_function :
  depth < 1 →
  ∃ self,
    __init__ expressions depth combo_function = Return self ∧
    multi_feature_depth self = depth ∧
    exp_dict self = ∅ ∧
    (∀ args postprocess, featurize self args postprocess = Return []) ∧
    (∀ col_id latexify_labels,
       feature_labels self col_id latexify_labels = Return []).
Proof.
  intros Hdepth. unfold __init__.
  rewrite range_empty by lia. eexists. split; [reflexivity|].
  split_and!; try done.
  - intros args postprocess. unfold featurize, _exp_iter; simpl.
    by rewrite range_empty by lia.
  - intros col_id latexify_labels. unfold feature_labels, _exp_iter; simpl.
    by rewrite range_empty by lia.
Qed.

(** ** C3 and C5 *)

Lemma generate_candidates expressions combo_depth combo_function :
  generate_expressions_combinations expressions combo_depth combo_function =
  cands ← candidates expressions combo_depth combo_function;
  x0 ← parse_expr "x0";
  mret (list_of_set (set_difference (set_ cands) (set_ [x0]))).
Proof.
  unfold generate_expressions_combinations, candidates.
  destruct (mapM parse_expr expressions) as [exp_array|]; [|done].
  rewrite !result_bind_Return.
  destruct (mapM _ (range 0 combo_depth)) as [all_arrays|]; [|done].
  by rewrite !result_bind_Return.
Qed.

(** What [generate_expressions_combinations] returns: the candidates
    other than [x0], each once. *)
Lemma generate_Return expressions combo_depth combo_function unique_exps :
  generate_expressions_combinations expressions combo_depth combo_function
    = Return unique_exps →
  ∃ cands x0,
    candidates expressions combo_depth combo_function = Return cands ∧
    parse_expr "x0" = Return x0 ∧
    NoDup unique_exps ∧
    ∀ e, e ∈ unique_exps ↔ e ∈ cands ∧ e ≠ x0.
Proof.
  rewrite generate_candidates.
  destruct (candidates _ _ _) as [cands|]; [|done].
  rewrite result_bind_Return.
  destruct (parse_expr "x0") as [x0|]; [|done].
  intros [= <-]. exists cands, x0. split_and!; try done.
  - unfold list_of_set. rewrite set_iter_perm.
    apply NoDup_list_difference, NoDup_remove_dups.
  - intros e. unfold list_of_set. rewrite set_iter_perm.
    unfold set_difference, set_. rewrite list_elem_of_difference.
    rewrite !elem_of_remove_dups, list_elem_of_singleton. done.
Qed.

(** C3: the list that [generate_expressions_combinations] returns, for
    any base expressions, depth and combining function, holds no
    expression equal to the bare variable [x0], that is, to
    [parse_expr('x0')]. *)
Theorem C3_identity_removed
    expressions combo_depth combo_function unique_exps x0 :
  generate_expressions_combinations expressions combo_depth combo_function
    = Return unique_exps →
  parse_expr "x0" = Return x0 →
  x0 ∉ unique_exps.
Proof.
  intros (cands & x0' & _ & Hx0 & _ & Hin)%generate_Return Hparse.
  rewrite Hx0 in Hparse. simplify_eq. rewrite Hin. by intros [_ ?].
Qed.

(** C5, as the code has it: the candidates go through a [set], which
    compares expressions by the equality of the engine (the structure of
    their canonical forms).  The list returned has no two equal entries
    and holds exactly the candidates other than [x0]: two candidates are
    collapsed into one retained entry if and only if they are equal in
    this sense. *)
Theorem C5_duplicates_are_equal_expressions
    expressions combo_depth combo_function cands unique_exps x0 :
  candidates expressions combo_depth combo_function = Return cands →
  parse_expr "x0" = Return x0 →
  generate_expressions_combinations expressions combo_depth combo_function
    = Return unique_exps →
  NoDup unique_exps ∧
  (∀ e, e ∈ unique_exps ↔ e ∈ cands ∧ e ≠ x0) ∧
  (∀ i j c1 c2, cands !! i = Some c1 → cands !! j = Some c2 →
     c1 ≠ x0 → c2 ≠ x0 →
     ∃ k1 k2, unique_exps !! k1 = Some c1 ∧ unique_exps !! k2 = Some c2 ∧
              (k1 = k2 ↔ c1 = c2)).
Proof.
  intros Hcands Hx0 (cands' & x0' & Hcands' & Hx0' & Hnodup & Hin)%generate_Return.
  rewrite Hcands in Hcands'. rewrite Hx0 in Hx0'. simplify_eq.
  split; [done|]. split; [done|].
  intros i j c1 c2 Hi%list_elem_of_lookup_2 Hj%list_elem_of_lookup_2 H1 H2.
  destruct (list_elem_of_lookup_1 unique_exps c1) as [k1 Hk1]; [by apply Hin|].
  destruct (list_elem_of_lookup_1 unique_exps c2) as [k2 Hk2]; [by apply Hin|].
  exists k1, k2. split_and!; try done. split.
  - intros ->. congruence.
  - intros ->. by eapply NoDup_lookup.
Qed.
End Claims.

(* ================================================================== *)
(** ** The examples, on the model of the engine                        *)
(* ================================================================== *)

Section ModelFacts.
Variable order : SetOrder Model.expr.
Local Hint Extern 0 SymPy => exact (Model.sympy order) : typeclass_instances.

Implicit Types (e : Model.expr) (l : list (string * R)).

Local Abbreviation x0 := Model.x0.
Local Abbreviation x1 := Model.x1.
Local Abbreviation inv := Model.inv.
Local Abbreviation products := Model.products.
Local Abbreviation at_2_3 := Model.at_2_3.
Local Abbreviation default_table := Model.default_table.
Local Abbreviation default_values_at_2 := Model.default_values_at_2.
Local Abbreviation float_items := Model.float_items.
Local Abbreviation float_env := Model.float_env.

Lemma mapM_sympify_floats l :
  mapM (λ kv : string * pyobj Model.expr, (kv.1,.) <$> Model.sympify kv.2)
       (float_items l)
  = Return ((λ kv, (kv.1, Model.Float kv.2)) <$> l).
Proof.
  induction l as [|[k x] l IH]; [done|].
  unfold Model.float_items in *. rewrite !fmap_cons. cbn [mapM]. by rewrite IH.
Qed.

(** Substituting floats for all the symbols of an expression evaluates
    it. *)
Lemma subs_floats e l r :
  Model.free_symbols e ≠ [] →
  Model.value (float_env l) e = Some r →
  Model.subs e (float_items l) = Return (Model.Float r).
Proof.
  intros Hfree Hval. unfold Model.subs. rewrite mapM_sympify_floats.
  rewrite result_bind_Return. unfold Model.float_env in Hval. rewrite Hval.
  by destruct (Model.free_symbols e).
Qed.

Lemma evaluated_floats args (t : Z * list nat * Expr) l r :
  bind_slots (select args t.1.2) = float_items l →
  Model.free_symbols t.2 ≠ [] →
  Model.value (float_env l) t.2 = Some r →
  recovered (evaluated args (postprocess_or_identity (Some py_float)) t)
  = Return (PyFloat r).
Proof.
  intros Hslots Hfree Hval. unfold evaluated. rewrite Hslots.
  change (subs t.2 (float_items l)) with (Model.subs t.2 (float_items l)).
  by rewrite (subs_floats _ _ r).
Qed.

Lemma list_bind_nil {A B} (f : A → list B) : [] ≫= f = [].
Proof. reflexivity. Qed.

Lemma table_lookup `{SymPy} self n exps :
  exp_dict self !! n = Some exps → table self n = exps.
Proof. intros Hn. unfold table. by rewrite Hn. Qed.

(** From a list of values to a function giving them. *)
Lemma values_function {A} (P : A → Prop) (f : A → option R)
    (xs : list A) (rs : list R) :
  Forall2 (λ x r, P x ∧ f x = Some r) xs rs →
  (λ x, default 0%R (f x)) <$> xs = rs ∧
  Forall (λ x, P x ∧ f x = Some (default 0%R (f x))) xs.
Proof.
  induction 1 as [|x r xs' rs' [? He] _ [IH1 IH2]]; [done|].
  rewrite fmap_cons, IH1, He. split; [done|]. constructor; [|done].
  by rewrite He.
Qed.

(** *** The depth-2 example *)

Lemma generate_x_inv_1 :
  generate_expressions_combinations ["x"; "1/x"]%string 1 np_prod
  = Return (set_iter order [inv x0]).
Proof. vm_compute. reflexivity. Qed.

Lemma generate_x_inv_2 :
  generate_expressions_combinations ["x"; "1/x"]%string 2 np_prod
  = Return (set_iter order products).
Proof. vm_compute. reflexivity. Qed.

Lemma set_iter_singleton e : set_iter order [e] = [e].
Proof. apply Permutation_singleton_r, set_iter_perm. Qed.

Lemma products_values :
  Forall2 (λ e r, Model.free_symbols e ≠ [] ∧
                  Model.value (float_env at_2_3) e = Some r)
          products [6; 2 / 3; 3 / 2; 1 / 6]%R.
Proof.
  repeat constructor; try done.
  all: sym_compute; decide_reals; f_equal; unfold powerRZ; simpl; lra.
Qed.

(** Distinct products take distinct values at (2, 3). *)
Lemma products_inequivalent :
  ∀ a b, a ∈ products → b ∈ products → Model.equivalent a b → a = b.
Proof.
  intros a b Ha Hb Hab.
  specialize (Hab (λ s, if String.eqb s "x0" then 2%R else 3%R)).
  revert Hab. unfold Model.products in *.
  repeat (apply elem_of_cons in Ha as [->|Ha]);
    [| | | |by apply elem_of_nil in Ha];
    repeat (apply elem_of_cons in Hb as [->|Hb]);
    try (by apply elem_of_nil in Hb); try done;
    sym_compute; decide_reals;
    unfold powerRZ; simpl; intros [= Heq]; exfalso; lra.
Qed.

(** C9: with [expressions=["x", "1/x"]], [multi_feature_depth=2] and the
    default product, the candidates of depth 2 are the four products
    [x0*x1], [x0/x1], [x1/x0], [1/(x0*x1)], each built twice (once per
    ordering of its factors); the table for depth 2 holds each of the
    four once, [x0*x1] among them, in the order the set gives; no two
    of the four are equivalent; and [featurize(2.0, 3.0)] returns the
    depth-1 outputs 1/2 and 1/3 followed by the values at (2, 3) of the
    expressions of the table, in table order: these are 6, 2/3, 3/2 and
    1/6, in the order the table has.  This holds for the model of the
    engine, whatever the order its sets are iterated in. *)
Theorem C9_depth_two_products :
  ∃ self t2 out2,
    __init__ (Some ["x"; "1/x"]%string) 2 None = Return self ∧
    candidates ["x"; "1/x"]%string 2 np_prod
      = Return (products ≫= λ e, [e; e]) ∧
    exp_dict self !! 1 = Some [inv x0] ∧
    exp_dict self !! 2 = Some t2 ∧
    t2 ≡ₚ products ∧
    NoDup t2 ∧
    (∀ a b, a ∈ t2 → b ∈ t2 → Model.equivalent a b → a = b) ∧
    featurize self [PyFloat 2%R; PyFloat 3%R] (Some py_float)
      = Return ([PyFloat (1 / 2)%R; PyFloat (1 / 3)%R] ++ out2) ∧
    Forall2 (λ e o, ∃ r, Model.value (float_env at_2_3) e = Some r
                         ∧ o = PyFloat r) t2 out2 ∧
    out2 ≡ₚ PyFloat <$> [6; 2 / 3; 3 / 2; 1 / 6]%R.
Proof.
  destruct (init_returns (Some ["x"; "1/x"]%string) 2 None) as [self Hinit].
  { intros n Hn. assert (n = 1 ∨ n = 2) as [-> | ->] by lia; eexists.
    - apply generate_x_inv_1.
    - apply generate_x_inv_2. }
  pose proof (init_complete _ _ _ _ Hinit) as Hself.
  destruct (init_Return _ _ _ _ Hinit) as (Hdepth & Htable & _).
  destruct (Htable 1) as (t1 & Ht1 & Hgen1); [lia|].
  destruct (Htable 2) as (t2 & Ht2 & Hgen2); [lia|].
  cbn [or_list] in Hgen1, Hgen2.
  destruct (generate_Return _ _ _ _ Hgen2) as (_ & _ & _ & _ & Hnodup & _).
  rewrite generate_x_inv_1 in Hgen1. rewrite generate_x_inv_2 in Hgen2.
  rewrite set_iter_singleton in Hgen1.
  injection Hgen1 as <-. injection Hgen2 as <-.
  pose proof (set_iter_perm order products) as Hperm.
  set (t2 := set_iter order products) in *.
  set (val := λ e, default 0%R (Model.value (float_env at_2_3) e)).
  destruct (values_function _ _ _ _ products_values) as [Hval Hvals].
  fold val in Hval, Hvals. rewrite <-Hperm in Hvals.
  exists self, t2, (PyFloat ∘ val <$> t2). split_and!.
  - done.
  - vm_compute. reflexivity.
  - done.
  - done.
  - done.
  - done.
  - intros a b Ha Hb. rewrite Hperm in Ha, Hb. by apply products_inequivalent.
  - rewrite featurize_triples by done. unfold triples. rewrite Hdepth.
    change (range 1 (2 + 1)) with [1; 2].
    rewrite !bind_cons, list_bind_nil, app_nil_r.
    change (index_combinations (Z.to_nat 1) (length [PyFloat 2%R; PyFloat 3%R]))
      with [[0]; [1]]%nat.
    change (index_combinations (Z.to_nat 2) (length [PyFloat 2%R; PyFloat 3%R]))
      with [[0; 1]]%nat.
    rewrite (table_lookup _ _ _ Ht1), (table_lookup _ _ _ Ht2).
    rewrite !bind_cons, !list_bind_nil, !app_nil_r.
    rewrite mapM_result_app.
    change [PyFloat 2%R; PyFloat 3%R] with (PyFloat (E:=Expr) <$> [2; 3]%R).
    cbn [app mapM].
    rewrite (evaluated_floats _ (1, [0%nat], inv x0) [("x0"%string, 2%R)] (1 / 2));
      [|reflexivity|done|sym_compute; decide_reals; f_equal; unfold powerRZ; simpl; lra].
    rewrite (evaluated_floats _ (1, [1%nat], inv x0) [("x0"%string, 3%R)] (1 / 3));
      [|reflexivity|done|sym_compute; decide_reals; f_equal; unfold powerRZ; simpl; lra].
    rewrite !result_bind_Return.
    assert (mapM (λ t, recovered (evaluated (PyFloat <$> [2; 3]%R)
                         (postprocess_or_identity (Some py_float)) t))
                 (t2 ≫= λ e, [(2, [0; 1]%nat, e)])
            = Return (PyFloat ∘ val <$> t2)) as ->; [|done].
    apply mapM_result_Return.
    clear -Hvals. induction Hvals as [|e es [Hfree He] _ IH]; [constructor|].
    rewrite bind_cons, fmap_cons. constructor; [|done].
    by apply (evaluated_floats _ (2, [0; 1]%nat, e) at_2_3).
  - apply Forall2_fmap_r, Forall_Forall2_diag.
    eapply Forall_impl; [exact Hvals|]. intros e [_ He]. by exists (val e).
  - rewrite Hperm, list_fmap_compose, Hval. done.
Qed.

(** *** The default expressions at depth 1 *)

Lemma generate_default_1 :
  generate_expressions_combinations default_exps 1 np_prod
  = Return (set_iter order default_table).
Proof. vm_compute. reflexivity. Qed.

Lemma ln_2_pos : (0 < ln 2)%R.
Proof. rewrite <-ln_1. apply ln_increasing; lra. Qed.

Lemma default_table_values :
  Forall2 (λ e r, Model.free_symbols e ≠ [] ∧
                  Model.value (float_env [("x0"%string, 2%R)]) e = Some r)
          default_table default_values_at_2.
Proof.
  pose proof ln_2_pos.
  repeat constructor; try done; sym_compute; decide_reals; f_equal.
  - unfold powerRZ; simpl; lra.
  - replace (Q2R (1 # 2)) with (/ 2)%R by (unfold Q2R; simpl; lra).
    apply Rpower_sqrt; lra.
  - replace (Q2R (-1 # 2)) with (- / 2)%R by (unfold Q2R; simpl; lra).
    rewrite Rpower_Ropp, Rpower_sqrt; lra.
  - unfold powerRZ; simpl; lra.
  - unfold powerRZ; simpl; lra.
  - unfold powerRZ; simpl; lra.
  - unfold powerRZ; simpl; lra.
  - unfold powerRZ; simpl. by rewrite Rmult_1_r.
  - f_equal. unfold Q2R; simpl; lra.
Qed.

(** None of them is within 1/10 of 2. *)
Lemma default_values_off_2 :
  Forall (λ r, r < 19 / 10 ∨ 21 / 10 < r)%R default_values_at_2.
Proof.
  assert (1 < sqrt 2 < 19 / 10)%R as Hsqrt.
  { pose proof (sqrt_pos 2). pose proof (sqrt_sqrt 2). nra. }
  assert (10 / 19 < ln 2 < 1)%R as Hln.
  { split.
    - rewrite <-(ln_exp (10 / 19)). apply ln_increasing; [apply exp_pos|].
      pose proof (exp_ineq1 (- (5 / 19))) as Ha.
      pose proof (exp_pos (10 / 19)) as Hb.
      assert (exp (10 / 19) * exp (- (5 / 19)) * exp (- (5 / 19)) = 1)%R as Hab.
      { rewrite <-!exp_plus, <-exp_0. f_equal. lra. }
      nra.
    - rewrite <-(ln_exp 1). apply ln_increasing; [lra|].
      pose proof (exp_ineq1 1). lra. }
  unfold Model.default_values_at_2. repeat apply Forall_cons_2; [..|done].
  - left; lra.
  - left; lra.
  - left. apply (Rmult_lt_reg_r (sqrt 2)); [lra|]. rewrite Rinv_l; lra.
  - right; lra.
  - left; lra.
  - right; lra.
  - left; lra.
  - left; lra.
  - left. apply (Rmult_lt_reg_r (ln 2)); [lra|]. rewrite Rinv_l; lra.
  - right. pose proof (exp_ineq1 2). lra.
  - left. pose proof (exp_increasing (- 2) 0). rewrite exp_0 in *. lra.
Qed.

(** With the default expressions and depth 1, [featurize(2.0)] returns
    the values at 2 of the expressions of the table, which are the
    default expressions without the identity. *)
Lemma featurize_default_at_2 :
  ∃ self t1 values,
    __init__ None 1 None = Return self ∧
    exp_dict self !! 1 = Some t1 ∧
    t1 ≡ₚ default_table ∧
    featurize self [PyFloat 2%R] (Some py_float) = Return values ∧
    Forall2 (λ e v, ∃ r, Model.value (float_env [("x0"%string, 2%R)]) e = Some r
                         ∧ v = PyFloat r) t1 values ∧
    values ≡ₚ PyFloat <$> default_values_at_2.
Proof.
  destruct (init_returns None 1 None) as [self Hinit].
  { intros n Hn. assert (n = 1) as -> by lia. eexists.
    apply generate_default_1. }
  pose proof (init_complete _ _ _ _ Hinit) as Hself.
  destruct (init_Return _ _ _ _ Hinit) as (Hdepth & Htable & _).
  destruct (Htable 1) as (t1 & Ht1 & Hgen1); [lia|].
  cbn [or_list] in Hgen1. rewrite generate_default_1 in Hgen1.
  injection Hgen1 as <-.
  pose proof (set_iter_perm order default_table) as Hperm.
  set (t1 := set_iter order default_table) in *.
  set (val := λ e, default 0%R
                     (Model.value (float_env [("x0"%string, 2%R)]) e)).
  destruct (values_function _ _ _ _ default_table_values) as [Hval Hvals].
  fold val in Hval, Hvals. rewrite <-Hperm in Hvals.
  exists self, t1, (PyFloat ∘ val <$> t1). split_and!; try done.
  - rewrite featurize_triples by done. unfold triples. rewrite Hdepth.
    change (range 1 (1 + 1)) with [1].
    rewrite !bind_cons, !list_bind_nil, !app_nil_r.
    change (index_combinations (Z.to_nat 1) (length [PyFloat 2%R]))
      with [[0]]%nat.
    rewrite (table_lookup _ _ _ Ht1).
    rewrite !bind_cons, !list_bind_nil, !app_nil_r.
    apply mapM_result_Return.
    clear -Hvals. induction Hvals as [|e es [Hfree He] _ IH]; [constructor|].
    rewrite bind_cons, fmap_cons. constructor; [|done].
    by apply (evaluated_floats [PyFloat 2%R] (1, [0]%nat, e) [("x0"%string, 2%R)]).
  - apply Forall2_fmap_r, Forall_Forall2_diag.
    eapply Forall_impl; [exact Hvals|]. intros e [_ He]. by exists (val e).
  - by rewrite Hperm, list_fmap_compose, Hval.
Qed.

(** C4, as the code has it: with the default expressions and
    [multi_feature_depth=1], the table holds the eleven default
    expressions other than the identity, which
    [generate_expressions_combinations] removes.  [featurize(2.0)]
    returns their values at 2, which include 0.5 (reciprocal), the
    square root of 2 and 4 (square); there is no output for the identity,
    and no output is within 1/10 of 2.  (Floats are taken by their exact
    real values.) *)
Theorem C4_default_outputs_without_identity :
  ∃ self t1 values,
    __init__ None 1 None = Return self ∧
    exp_dict self !! 1 = Some t1 ∧
    t1 ≡ₚ default_table ∧
    (x0 ∉ t1) ∧
    featurize self [PyFloat 2%R] (Some py_float) = Return values ∧
    values ≡ₚ PyFloat <$> default_values_at_2 ∧
    PyFloat (1 / 2)%R ∈ values ∧
    PyFloat (sqrt 2) ∈ values ∧
    PyFloat 4%R ∈ values ∧
    (∀ x, PyFloat x ∈ values → x < 19 / 10 ∨ 21 / 10 < x)%R.
Proof.
  destruct featurize_default_at_2
    as (self & t1 & values & Hinit & Ht1 & Hperm & Hrun & _ & Hvalues).
  exists self, t1, values. split_and!; try done.
  - rewrite Hperm. unfold Model.default_table.
    rewrite !not_elem_of_cons. split_and!; try done. apply not_elem_of_nil.
  - rewrite Hvalues. apply list_elem_of_fmap_2. set_solver.
  - rewrite Hvalues. apply list_elem_of_fmap_2.
    unfold Model.default_values_at_2. set_solver.
  - rewrite Hvalues. apply list_elem_of_fmap_2.
    unfold Model.default_values_at_2. set_solver.
  - intros x. rewrite Hvalues.
    intros (r & [= ->] & Hr)%list_elem_of_fmap.
    pose proof default_values_off_2 as Hoff.
    by eapply Forall_forall in Hoff.
Qed.

(** The two forms of [x*(x + 1)] are equivalent. *)
Lemma factored_expanded_equivalent :
  Model.equivalent Model.factored Model.expanded.
Proof.
  intros env. sym_compute. f_equal. unfold Q2R, powerRZ; simpl. field.
Qed.

End ModelFacts.

(* ================================================================== *)
(** ** The claims on the example featurizers                           *)
(* ================================================================== *)

Module OnExamples.
Import Examples.

Local Abbreviation x0 := Model.x0.
Local Abbreviation inv := Model.inv.
Local Abbreviation square := (Model.Pow Model.x0 (Model.Rational 2)).

(** [FunctionFeaturizer(["x", "1/x"], 2)] and
    [FunctionFeaturizer(["1/x", "x**2"])] on the model. *)
Local Abbreviation ff2 := (x_and_inverse engine [inv x0] Model.products).
Local Abbreviation ff1 := (inverse_and_square engine [inv x0; square]).
Local Abbreviation ff1_failing :=
  (inverse_and_square failing_renderers [inv x0; square]).

(** [featurize(2.0)] and [feature_labels(["a"])] of the second one. *)
Lemma featurize_ff1_at_2 :
  featurize ff1 [PyFloat 2%R] (Some py_float)
  = Return [PyFloat (1 / 2)%R; PyFloat 4%R].
Proof.
  rewrite featurize_triples
    by (apply (init_complete (Some ["1/x"; "x**2"]%string) 1 None); reflexivity).
  replace (triples ff1 _)
    with [(1, [0%nat], inv x0); (1, [0%nat], square)] by reflexivity.
  cbn [mapM].
  rewrite (evaluated_floats Model.insertion_order [PyFloat 2%R]
             (1, [0%nat], inv x0) [("x0"%string, 2%R)] (1 / 2));
    [|reflexivity|done
     |sym_compute; decide_reals; f_equal; unfold powerRZ; simpl; lra].
  rewrite (evaluated_floats Model.insertion_order [PyFloat 2%R]
             (1, [0%nat], square) [("x0"%string, 2%R)] 4);
    [|reflexivity|done
     |sym_compute; decide_reals; f_equal; unfold powerRZ; simpl; lra].
  reflexivity.
Qed.

Lemma feature_labels_ff1 :
  feature_labels ff1 ["a"]%string false
  = Return [PyStr "a**(-1)"; PyStr "a**2"].
Proof. vm_compute. reflexivity. Qed.

(** At 0 the reciprocal has no float value. *)
Lemma evaluated_inverse_at_0 :
  evaluated (H:=engine) [PyFloat 0%R] (postprocess_or_identity (Some py_float))
            (1, [0%nat], inv x0)
  = Raise TypeError.
Proof. sym_compute. decide_reals. sym_compute. decide_reals. reflexivity. Qed.

Lemma evaluated_square_at_0 :
  evaluated (H:=engine) [PyFloat 0%R] (postprocess_or_identity (Some py_float))
            (1, [0%nat], square)
  = Return (PyFloat 0%R).
Proof.
  sym_compute. do 2 f_equal. unfold powerRZ; simpl; lra.
Qed.

(** *** Witnesses *)

Lemma C8_nested_enumeration_order_witness :
  __init__ (H:=engine) (Some ["x"; "1/x"]%string) 2 None = Return ff2 ∧
  featurize ff2 [PyFloat 2%R; PyFloat 3%R] (Some py_float) =
    mapM (λ t, recovered (evaluated [PyFloat 2%R; PyFloat 3%R]
                            (postprocess_or_identity (Some py_float)) t))
         (triples ff2 2) ∧
  feature_labels ff2 ["a"; "b"]%string false =
    mapM (λ t, recovered (evaluated (PyStr <$> ["a"; "b"]%string) (render false) t))
         (triples ff2 2) ∧
  (∀ n, itertools.combinations [PyFloat (E:=Model.expr) 2%R; PyFloat 3%R] n
        = select [PyFloat 2%R; PyFloat 3%R] <$> index_combinations n 2) ∧
  (∀ n t, t ∈ index_combinations n 2 ↔
          length t = n ∧ increasing t ∧ Forall (λ i, i < 2)%nat t) ∧
  (∀ n, StronglySorted lex_lt (index_combinations n 2)).
Proof.
  split; [reflexivity|].
  refine (C8_nested_enumeration_order
            (Some ["x"; "1/x"]%string) 2 None ff2 [PyFloat 2%R; PyFloat 3%R]
            (Some py_float) ["a"; "b"]%string false _).
  reflexivity.
Defined.

Lemma C1_values_and_labels_correspond_witness :
  let values := [PyFloat (1 / 2)%R; PyFloat 4%R] in
  let labels := [PyStr "a**(-1)"; PyStr "a**2"] in
  length values = length labels ∧
  ∀ i, (i < length values)%nat →
    ∃ t v l,
      triples ff1 1 !! i = Some t ∧
      values !! i = Some v ∧
      labels !! i = Some l ∧
      recovered (evaluated [PyFloat 2%R] (postprocess_or_identity (Some py_float)) t)
        = Return v ∧
      recovered (evaluated (PyStr <$> ["a"]%string) (render false) t) = Return l.
Proof.
  refine (C1_values_and_labels_correspond
            (Some ["1/x"; "x**2"]%string) 1 None ff1 [PyFloat 2%R] ["a"]%string
            (Some py_float) false _ _ _ _ _ _).
  - reflexivity.
  - reflexivity.
  - apply featurize_ff1_at_2.
  - apply feature_labels_ff1.
Defined.

Lemma C2_error_recovered_at_its_position_witness :
  ∃ values,
    featurize ff1 [PyFloat 0%R] (Some py_float) = Return values ∧
    values !! 0%nat = Some PyNone ∧
    (∀ j t' v, triples ff1 1 !! j = Some t' →
       evaluated [PyFloat 0%R] (postprocess_or_identity (Some py_float)) t'
         = Return v →
       values !! j = Some v) ∧
    length values = length (triples ff1 1) ∧
    (∀ postprocess' values',
       featurize ff1 [PyFloat 0%R] postprocess' = Return values' →
       length values' = length values).
Proof.
  refine (C2_error_recovered_at_its_position
            (Some ["1/x"; "x**2"]%string) 1 None ff1 [PyFloat 0%R]
            (Some py_float) 0%nat (1, [0%nat], inv x0) TypeError _ _ _ _ _).
  - reflexivity.
  - reflexivity.
  - apply evaluated_inverse_at_0.
  - reflexivity.
  - intros [|[|j]] t' c' Hj Ht' Hc'; [done| |done].
    injection Ht' as <-.
    discriminate (eq_trans (eq_sym Hc') evaluated_square_at_0).
Defined.

Lemma C10_only_type_and_value_errors_recovered_witness :
  (∀ c, handled c = true ↔
        issubclass c TypeError = true ∨ issubclass c ValueError = true) ∧
  handled OverflowError = false ∧
  handled ZeroDivisionError = false ∧
  (∀ values i t c,
     featurize ff1 [PyFloat 0%R] (Some py_float) = Return values →
     triples ff1 1 !! i = Some t →
     evaluated [PyFloat 0%R] (postprocess_or_identity (Some py_float)) t = Raise c →
     handled c = true ∧ values !! i = Some PyNone) ∧
  (∀ i t c,
     triples ff1 1 !! i = Some t →
     evaluated [PyFloat 0%R] (postprocess_or_identity (Some py_float)) t = Raise c →
     handled c = false →
     ∃ i' t' c',
       (i' ≤ i)%nat ∧
       triples ff1 1 !! i' = Some t' ∧
       evaluated [PyFloat 0%R] (postprocess_or_identity (Some py_float)) t'
         = Raise c' ∧
       handled c' = false ∧
       featurize ff1 [PyFloat 0%R] (Some py_float) = Raise c') ∧
  (∀ col_id latexify_labels,
     feature_labels ff1 col_id latexify_labels =
     featurize ff1 (PyStr <$> col_id) (Some (render latexify_labels))).
Proof.
  refine (C10_only_type_and_value_errors_recovered
            (Some ["1/x"; "x**2"]%string) 1 None ff1 [PyFloat 0%R]
            (Some py_float) _).
  reflexivity.
Defined.

(** With [str] failing, the labels are [None]. *)
Lemma feature_labels_ff1_failing :
  feature_labels ff1_failing ["a"]%string false = Return [PyNone; PyNone].
Proof. vm_compute. reflexivity. Qed.

Lemma C7_rendering_errors_go_through_the_handler_witness :
  (handled ValueError = true →
     (∀ labels, feature_labels ff1_failing ["a"]%string false = Return labels →
                labels !! 0%nat = Some PyNone) ∧
     ((∀ j t' c', j ≠ 0%nat → triples ff1_failing 1 !! j = Some t' →
         evaluated (PyStr <$> ["a"]%string) (render false) t' = Raise c' →
         handled c' = true) →
      ∃ labels, feature_labels ff1_failing ["a"]%string false = Return labels)) ∧
  (handled ValueError = false →
     ∃ c', feature_labels ff1_failing ["a"]%string false = Raise c'
           ∧ handled c' = false).
Proof.
  refine (C7_rendering_errors_go_through_the_handler
            (Some ["1/x"; "x**2"]%string) 1 None ff1_failing ["a"]%string false
            0%nat (1, [0%nat], inv x0) (inv (Model.Symbol "a")) ValueError
            _ _ _ _).
  - reflexivity.
  - reflexivity.
  - vm_compute. reflexivity.
  - reflexivity.
Defined.

(** The claim C7 fails on a renderer that raises a ValueError: rendering
    raises for the first triple, and the call returns, with the sentinel in
    place of the label. *)
Lemma C7_counterexample :
  (subs (SymPy:=failing_renderers) (inv x0)
        (bind_slots (select (PyStr <$> ["a"]%string) [0%nat]))
     ≫= render false) = Raise ValueError ∧
  triples ff1_failing 1 !! 0%nat = Some (1, [0%nat], inv x0) ∧
  feature_labels ff1_failing ["a"]%string false = Return [PyNone; PyNone].
Proof.
  split_and!.
  - vm_compute. reflexivity.
  - reflexivity.
  - apply feature_labels_ff1_failing.
Qed.

Lemma C6_depth_below_one_gives_an_empty_featurizer_witness :
  0 < 1 ∧
  ∃ self,
    __init__ (H:=engine) None 0 None = Return self ∧
    multi_feature_depth self = 0 ∧
    exp_dict self = ∅ ∧
    (∀ args postprocess, featurize self args postprocess = Return []) ∧
    (∀ col_id latexify_labels,
       feature_labels self col_id latexify_labels = Return []).
Proof.
  split; [lia|].
  apply (C6_depth_below_one_gives_an_empty_featurizer (H:=engine) None 0 None).
  lia.
Defined.

(** The claim C6 fails at [multi_feature_depth=0]: the constructor returns
    a featurizer. *)
Lemma C6_counterexample :
  ∃ self, __init__ (H:=engine) None 0 None = Return self
          ∧ ¬ ∃ c, __init__ (H:=engine) None 0 None = Raise c.
Proof.
  eexists. split; [reflexivity|]. by intros [c ?].
Qed.

Lemma C3_identity_removed_witness :
  generate_expressions_combinations (H:=engine) ["x"; "1/x"]%string 1 np_prod
    = Return [inv x0] ∧
  parse_expr (SymPy:=engine) "x0" = Return x0 ∧
  x0 ∉ [inv x0].
Proof.
  split; [reflexivity|]. split; [reflexivity|].
  refine (C3_identity_removed (H:=engine)
            ["x"; "1/x"]%string 1 np_prod [inv x0] x0 _ _); reflexivity.
Defined.

Lemma C5_duplicates_are_equal_expressions_witness :
  let cands := [square; square; inv x0] in
  let unique_exps := [square; inv x0] in
  candidates (H:=engine) ["x*x"; "x**2"; "1/x"]%string 1 np_prod
    = Return cands ∧
  generate_expressions_combinations (H:=engine)
      ["x*x"; "x**2"; "1/x"]%string 1 np_prod
    = Return unique_exps ∧
  NoDup unique_exps ∧
  (∀ e, e ∈ unique_exps ↔ e ∈ cands ∧ e ≠ x0) ∧
  (∀ i j c1 c2, cands !! i = Some c1 → cands !! j = Some c2 →
     c1 ≠ x0 → c2 ≠ x0 →
     ∃ k1 k2, unique_exps !! k1 = Some c1 ∧ unique_exps !! k2 = Some c2 ∧
              (k1 = k2 ↔ c1 = c2)).
Proof.
  split; [reflexivity|]. split; [reflexivity|].
  refine (C5_duplicates_are_equal_expressions (H:=engine)
            ["x*x"; "x**2"; "1/x"]%string 1 np_prod
            [square; square; inv x0] [square; inv x0] x0 _ _ _);
    reflexivity.
Defined.

(** The claim C5 fails on [x*(x+1)] and [x**2+x]: the two candidates are
    equivalent, and both are retained. *)
Lemma C5_counterexample :
  candidates (H:=engine) ["x*(x+1)"; "x**2+x"]%string 1 np_prod
    = Return [Model.factored; Model.expanded] ∧
  Model.equivalent Model.factored Model.expanded ∧
  generate_expressions_combinations (H:=engine)
      ["x*(x+1)"; "x**2+x"]%string 1 np_prod
    = Return [Model.factored; Model.expanded] ∧
  Model.factored ≠ Model.expanded.
Proof.
  split_and!.
  - reflexivity.
  - apply factored_expanded_equivalent.
  - reflexivity.
  - done.
Qed.

(** The claim C4 fails: [featurize(2.0)] has no output within 1/10
    of 2. *)
Lemma C4_counterexample :
  ∃ self values,
    __init__ (H:=engine) None 1 None = Return self ∧
    featurize self [PyFloat 2%R] (Some py_float) = Return values ∧
    ¬ ∃ x, PyFloat x ∈ values ∧ (Rabs (x - 2) <= 1 / 10)%R.
Proof.
  destruct (featurize_default_at_2 Model.insertion_order)
    as (self & t1 & values & Hinit & _ & _ & Hrun & _ & Hvalues).
  exists self, values. split_and!; try done.
  intros (x & Hx & Hclose). rewrite Hvalues in Hx.
  apply list_elem_of_fmap in Hx as (r & [= ->] & Hr).
  pose proof default_values_off_2 as Hoff.
  eapply Forall_forall in Hoff; [|done].
  unfold Rabs in Hclose. destruct (Rcase_abs (r - 2)); lra.
Qed.
End OnExamples.

(* ================================================================== *)
(** ** Counting, construction and depth                                *)
(* ================================================================== *)

(** ** Counting *)

Lemma length_bind_const {A B} (f : A → list B) (l : list A) (c : nat) :
  Forall (λ x, length (f x) = c) l → length (l ≫= f) = (length l * c)%nat.
Proof.
  induction 1 as [|x l Hx _ IH]; [done|].
  rewrite bind_cons, length_app, IH, Hx. simpl. lia.
Qed.

Section Counting.
Context {A : Type}.
Implicit Types (l : list A).

Lemma length_combinations l r :
  length (itertools.combinations l r) = choose (length l) r.
Proof.
  revert r. induction l as [|x l IH]; intros [|r]; simpl; try done.
  by rewrite length_app, length_fmap, !IH.
Qed.

Lemma length_product (pools : list (list A)) (k : nat) :
  Forall (λ p, length p = k) pools →
  length (itertools.product pools) = (k ^ length pools)%nat.
Proof.
  induction 1 as [|p pools Hp _ IH]; [done|].
  cbn [itertools.product].
  rewrite (length_bind_const _ _ (k ^ length pools)).
  - rewrite Hp. simpl. lia.
  - apply Forall_forall. intros x _. by rewrite length_fmap.
Qed.

Lemma product_length (pools : list (list A)) s :
  s ∈ itertools.product pools → length s = length pools.
Proof.
  revert s. induction pools as [|p pools IH]; intros s; cbn [itertools.product].
  - by intros ->%list_elem_of_singleton.
  - intros (x & (s' & -> & Hs')%list_elem_of_fmap & _)%list_elem_of_bind.
    simpl. by rewrite (IH s').
Qed.

Lemma picks_length l p : p ∈ itertools.picks l → S (length p.2) = length l.
Proof.
  revert p. induction l as [|x l IH]; intros p; simpl.
  - by intros ?%elem_of_nil.
  - intros [->|(q & -> & Hq)%list_elem_of_fmap]%elem_of_cons; simpl; [done|].
    by rewrite (IH q).
Qed.

Lemma length_picks l : length (itertools.picks l) = length l.
Proof. induction l as [|x l IH]; simpl; [done|]. by rewrite length_fmap, IH. Qed.

Lemma length_permutations_of_length n l :
  length l = n →
  length (itertools.permutations_of_length n l) = fact n.
Proof.
  revert l. induction n as [|n IH]; intros l Hl; [done|].
  cbn [itertools.permutations_of_length].
  rewrite (length_bind_const _ _ (fact n)).
  - rewrite length_picks, Hl. simpl. lia.
  - apply Forall_forall. intros p Hp%picks_length.
    rewrite length_fmap. apply IH. lia.
Qed.

Lemma length_permutations l :
  length (itertools.permutations l) = fact (length l).
Proof. by apply length_permutations_of_length. Qed.
End Counting.

Section ConstructionFacts.
Context `{SymPy}.
Implicit Types (self : FunctionFeaturizer) (args : list PyObj).

(** The steps of [candidates], named. *)
Lemma candidates_steps expressions combo_depth combo_function :
  candidates expressions combo_depth combo_function =
  exp_array ← mapM parse_expr expressions;
  all_arrays ← mapM (λ n, mapM (rename n) exp_array) (range 0 combo_depth);
  combo_exps all_arrays combo_function.
Proof. reflexivity. Qed.

Lemma length_range a b : length (range a b) = Z.to_nat (b - a).
Proof. unfold range. apply length_seqZ. Qed.

(** The candidates that are combined from arrays of [k] expressions. *)
Lemma length_combo_exps (all_arrays : list (list Expr)) combo_function k cands :
  Forall (λ p, length p = k) all_arrays →
  combo_exps all_arrays combo_function = Return cands →
  length cands = (k ^ length all_arrays * fact (length all_arrays))%nat.
Proof.
  intros Hk Hc%mapM_result_length. rewrite Hc.
  rewrite (length_bind_const _ _ (fact (length all_arrays))).
  - by rewrite (length_product _ k).
  - apply Forall_forall. intros s Hs%product_length.
    by rewrite length_permutations, Hs.
Qed.

Lemma length_candidates expressions combo_depth combo_function cands :
  candidates expressions combo_depth combo_function = Return cands →
  length cands =
    (length expressions ^ Z.to_nat combo_depth * fact (Z.to_nat combo_depth))%nat.
Proof.
  rewrite candidates_steps.
  destruct (mapM parse_expr expressions) as [exp_array|] eqn:Harr; [|done].
  rewrite result_bind_Return.
  destruct (mapM _ (range 0 combo_depth)) as [all_arrays|] eqn:Hall; [|done].
  rewrite result_bind_Return. intros Hc.
  apply mapM_result_length in Harr.
  assert (length all_arrays = Z.to_nat combo_depth) as Hlen.
  { apply mapM_result_length in Hall. rewrite Hall, length_range. f_equal. lia. }
  rewrite <- Hlen, <- Harr.
  apply (length_combo_exps _ combo_function); [|done].
  apply mapM_result_Return in Hall. clear -Hall.
  induction Hall as [|n arr ?? Hn _ IH]; constructor; [|done].
  by apply mapM_result_length in Hn.
Qed.

(** X4 (generate_expressions_combinations, the two loops): the loops
    append one candidate for every ordering of every pick, that is
    [len(expressions) ** combo_depth * combo_depth!] candidates (one, for
    a depth below 1), and the returned list is no longer than that. *)
Theorem candidate_count expressions combo_depth combo_function unique_exps :
  generate_expressions_combinations expressions combo_depth combo_function
    = Return unique_exps →
  ∃ cands,
    candidates expressions combo_depth combo_function = Return cands ∧
    length cands =
      (length expressions ^ Z.to_nat combo_depth
       * fact (Z.to_nat combo_depth))%nat ∧
    (length unique_exps ≤ length cands)%nat.
Proof.
  intros (cands & x0 & Hc & _ & Hnodup & Hin)%generate_Return.
  exists cands. split_and!; [done|by apply (length_candidates _ _ combo_function)|].
  apply submseteq_length, NoDup_submseteq; [done|].
  intros e He. by apply Hin in He as [? _].
Qed.

Lemma init_any_combo_function expressions depth cf1 cf2 s1 :
  __init__ expressions depth cf1 = Return s1 →
  ∃ s2, __init__ expressions depth cf2 = Return s2 ∧
        multi_feature_depth s2 = multi_feature_depth s1 ∧
        exp_dict s2 = exp_dict s1.
Proof.
  unfold __init__.
  destruct (mapM _ (range 1 (depth + 1))) as [items|c]; [|done].
  intros [= <-]. by eexists.
Qed.

Lemma exp_iter_table s1 s2 args postprocess :
  multi_feature_depth s2 = multi_feature_depth s1 →
  exp_dict s2 = exp_dict s1 →
  _exp_iter s2 args postprocess = _exp_iter s1 args postprocess.
Proof. unfold _exp_iter. by intros -> ->. Qed.

(** X1 (__init__): the [combo_function] given to the constructor is
    stored and never passed to [generate_expressions_combinations]: with
    any two of them the constructor fails alike, or returns featurizers
    with the same table, the same outputs and the same labels. *)
Theorem combo_function_not_used expressions depth cf1 cf2 :
  (∀ c, __init__ expressions depth cf1 = Raise c →
        __init__ expressions depth cf2 = Raise c) ∧
  (∀ s1, __init__ expressions depth cf1 = Return s1 →
     ∃ s2,
       __init__ expressions depth cf2 = Return s2 ∧
       exp_dict s2 = exp_dict s1 ∧
       (∀ args postprocess,
          featurize s2 args postprocess = featurize s1 args postprocess) ∧
       (∀ col_id latexify_labels,
          feature_labels s2 col_id latexify_labels
          = feature_labels s1 col_id latexify_labels)).
Proof.
  split.
  - intros c. unfold __init__.
    by destruct (mapM _ (range 1 (depth + 1))) as [items|c'].
  - intros s1 (s2 & Hs2 & Hd & Ht)%(init_any_combo_function _ _ _ cf2).
    exists s2. split_and!; [done..| |].
    + intros. unfold featurize. by rewrite (exp_iter_table s1 s2).
    + intros. unfold feature_labels. by rewrite (exp_iter_table s1 s2).
Qed.

(** X2 (__init__): the table of a constructed featurizer has exactly the
    keys [1 .. multi_feature_depth], and under [n] the list generated for
    depth [n] with the default combining function. *)
Theorem table_holds_generated_lists expressions depth combo_function self :
  __init__ expressions depth combo_function = Return self →
  ∀ n exps,
    exp_dict self !! n = Some exps ↔
    1 ≤ n ≤ depth ∧
    generate_expressions_combinations
      (or_list expressions default_exps) n np_prod = Return exps.
Proof.
  intros (_ & Hin & Hout)%init_Return n exps. split.
  - intros Hn. destruct (decide (1 ≤ n ≤ depth)) as [Hd|Hd].
    + split; [done|]. destruct (Hin n Hd) as (exps' & He & Hg). congruence.
    + rewrite (Hout n Hd) in Hn. done.
  - intros [Hd Hg]. destruct (Hin n Hd) as (exps' & He & Hg'). congruence.
Qed.

Lemma generate_parse_Raise expressions combo_depth combo_function c :
  mapM parse_expr expressions = Raise c →
  generate_expressions_combinations expressions combo_depth combo_function
  = Raise c.
Proof. unfold generate_expressions_combinations. by intros ->. Qed.

(** X3 (generate_expressions_combinations, __init__): a base expression
    that does not parse is fatal.  The exception of the first such
    expression leaves [generate_expressions_combinations], whatever the
    depth and the combining function, and leaves the constructor as soon as
    there is a depth to generate. *)
Theorem unparsable_expression_raises
    expressions (i : nat) (s : string) (c : exn) :
  expressions !! i = Some s →
  parse_expr s = Raise c →
  (∀ j s', (j < i)%nat → expressions !! j = Some s' →
           ∃ e, parse_expr s' = Return e) →
  (∀ combo_depth combo_function,
     generate_expressions_combinations expressions combo_depth combo_function
     = Raise c) ∧
  (∀ depth combo_function,
     1 ≤ depth →
     __init__ (Some expressions) depth combo_function = Raise c).
Proof.
  intros Hi Hs Hbefore.
  assert (mapM parse_expr expressions = Raise c) as Hparse.
  { apply mapM_result_Raise. by exists i, s. }
  split; [intros; by apply generate_parse_Raise|].
  intros depth combo_function Hd. unfold __init__.
  assert (or_list (Some expressions) default_exps = expressions) as ->.
  { destruct expressions; [by destruct i|done]. }
  unfold range. rewrite seqZ_cons by lia. rewrite mapM_result_cons.
  by rewrite (generate_parse_Raise _ _ _ c).
Qed.

Lemma product_singleton (p : list Expr) :
  itertools.product [p] = (λ x, [x]) <$> p.
Proof.
  cbn [itertools.product]. induction p as [|x p IH]; [done|].
  by rewrite bind_cons, fmap_cons, IH.
Qed.

Lemma combo_exps_singleton (p : list Expr) :
  combo_exps [p] np_prod = Return p.
Proof.
  unfold combo_exps. rewrite product_singleton.
  induction p as [|x p IH]; [done|].
  rewrite fmap_cons, bind_cons. 
  change (itertools.permutations [x]) with [[x]].
  change ([[x]] ++ ?l) with ([x] :: l).
  rewrite mapM_result_cons, IH. reflexivity.
Qed.

Lemma candidates_depth_one expressions :
  candidates expressions 1 np_prod =
  exp_array ← mapM parse_expr expressions; mapM (rename 0) exp_array.
Proof.
  rewrite candidates_steps.
  destruct (mapM parse_expr expressions) as [exp_array|]; [|done].
  rewrite !result_bind_Return.
  change (range 0 1) with [0]. rewrite mapM_result_cons.
  destruct (mapM (rename 0) exp_array) as [renamed|]; [|done].
  rewrite !result_bind_Return. change (mapM _ []) with (Return (@nil (list Expr))).
  rewrite !result_bind_Return. apply combo_exps_singleton.
Qed.

(** X5 (generate_expressions_combinations): at depth 1, with [np.prod],
    nothing is combined: the result is the set of the base expressions
    with [x] renamed to [x0], without [x0] itself. *)
Theorem depth_one_expressions expressions :
  generate_expressions_combinations expressions 1 np_prod =
  exp_array ← mapM parse_expr expressions;
  renamed ← mapM (rename 0) exp_array;
  x0 ← parse_expr "x0";
  mret (list_of_set (set_difference (set_ renamed) (set_ [x0]))).
Proof.
  rewrite generate_candidates, candidates_depth_one.
  by destruct (mapM parse_expr expressions).
Qed.

(** X16 (__init__): [expressions or default_exps] leaves no featurizer
    without base expressions: an empty list, like [None], is replaced by
    the defaults, and the featurizer is the one that the default
    expressions, given explicitly, construct. *)
Theorem expressions_never_empty given depth combo_function self :
  __init__ given depth combo_function = Return self →
  expressions self ≠ [] ∧
  (given = None ∨ given = Some [] →
   expressions self = default_exps ∧
   __init__ (Some default_exps) depth combo_function = Return self).
Proof.
  intros Hinit. split.
  - revert Hinit. unfold __init__.
    destruct (mapM _ (range 1 (depth + 1))) as [items|c]; [|done].
    intros [= <-]; simpl. destruct given as [[|]|]; done.
  - intros Hgiven. split.
    + revert Hinit. unfold __init__.
      destruct (mapM _ (range 1 (depth + 1))) as [items|c]; [|done].
      intros [= <-]; simpl. by destruct Hgiven as [->| ->].
    + rewrite <- Hinit. by destruct Hgiven as [->| ->].
Qed.
End ConstructionFacts.

(** ** The loops of [_exp_iter], depth by depth *)

Lemma choose_lt n r : (n < r)%nat → choose n r = 0%nat.
Proof.
  revert r. induction n as [|n IH]; intros [|r] Hr; simpl; try lia.
  rewrite !IH by lia. done.
Qed.

Lemma choose_pos n r : (r ≤ n)%nat → (0 < choose n r)%nat.
Proof.
  revert r. induction n as [|n IH]; intros [|r] Hr; simpl; try lia.
  specialize (IH r). lia.
Qed.

Lemma length_index_combinations r len :
  length (index_combinations r len) = choose len r.
Proof.
  rewrite <- (length_replicate len ()) at 2.
  rewrite <- length_combinations, combinations_index_combinations.
  by rewrite length_fmap, length_replicate.
Qed.

Lemma combinations_short {A} (l : list A) r :
  (length l < r)%nat → itertools.combinations l r = [].
Proof.
  intros Hr. apply length_zero_iff_nil.
  by rewrite length_combinations, choose_lt.
Qed.

Lemma combinations_one {A} (l : list A) :
  itertools.combinations l 1 = (λ x, [x]) <$> l.
Proof.
  induction l as [|x l IH]; [done|].
  cbn [itertools.combinations]. rewrite IH. by destruct l.
Qed.

Lemma join_mapM_nil {A B} (f : A → result (list B)) (l : list A) :
  (∀ x, x ∈ l → f x = Return []) → mjoin <$> mapM f l = Return [].
Proof.
  induction l as [|x l IH]; intros Hf; [done|].
  rewrite mapM_result_cons, Hf by left.
  rewrite result_bind_Return.
  destruct (mapM f l) as [k|c] eqn:Hk.
  - rewrite result_bind_Return. 
    specialize (IH (λ y Hy, Hf y (list_elem_of_further _ _ _ Hy))).
    injection IH as IH. simpl. by rewrite IH.
  - by specialize (IH (λ y Hy, Hf y (list_elem_of_further _ _ _ Hy))).
Qed.

Lemma join_mapM_app {A B} (f : A → result (list B)) (l1 l2 : list A) :
  mjoin <$> mapM f (l1 ++ l2) =
  v1 ← mjoin <$> mapM f l1; v2 ← mjoin <$> mapM f l2; mret (v1 ++ v2).
Proof.
  rewrite mapM_result_app.
  destruct (mapM f l1) as [k1|]; [|done].
  destruct (mapM f l2) as [k2|]; [|done].
  simpl. unfold mret, result_ret. f_equal. apply join_app.
Qed.

Section DepthFacts.
Context `{SymPy}.
Implicit Types (self : FunctionFeaturizer) (args : list PyObj).

(** [list(self._exp_iter(...))], loop by loop: no assumption on the table. *)
Lemma list_exp_iter_loops self args postprocess :
  list_ (_exp_iter self args postprocess) =
  mjoin <$> mapM (outputs_at_depth self args (postprocess_or_identity postprocess))
                 (range 1 (multi_feature_depth self + 1)).
Proof.
  unfold _exp_iter. rewrite list_for_. f_equal.
  apply mapM_result_ext. intros n _.
  rewrite list_for_. unfold outputs_at_depth. f_equal.
  apply mapM_result_ext. intros combo _.
  rewrite list_eval_bind. unfold outputs_of_combo.
  destruct (getitem (exp_dict self) n) as [tbl|]; [|done].
  rewrite !result_bind_Return, list_for_.
  transitivity (mjoin <$> mapM (λ e, (λ v, [v]) <$>
     recovered (subs e (bind_slots combo) ≫= postprocess_or_identity postprocess)) tbl).
  { f_equal. apply mapM_result_ext. intros e _. by rewrite list_try_yield. }
  clear. induction tbl as [|e tbl IH]; [done|].
  rewrite !mapM_result_cons.
  destruct (recovered _) as [v|]; [|done].
  change ((λ v, [v]) <$> Return v) with (@Return (list PyObj) [v]).
  rewrite !result_bind_Return.
  destruct (mapM _ tbl) as [k|]; destruct (mapM _ tbl) as [k'|]; try done.
  simpl in *. by injection IH as ->.
Qed.

Lemma featurize_loops self args postprocess :
  featurize self args postprocess =
  mjoin <$> mapM (outputs_at_depth self args (postprocess_or_identity postprocess))
                 (range 1 (multi_feature_depth self + 1)).
Proof. apply list_exp_iter_loops. Qed.

Lemma feature_labels_loops self col_id latexify_labels :
  feature_labels self col_id latexify_labels =
  mjoin <$> mapM (outputs_at_depth self (PyStr <$> col_id) (render latexify_labels))
                 (range 1 (multi_feature_depth self + 1)).
Proof. apply list_exp_iter_loops. Qed.

Lemma outputs_at_depth_short self args post n :
  Z.of_nat (length args) < n → outputs_at_depth self args post n = Return [].
Proof.
  intros Hn. unfold outputs_at_depth.
  by rewrite combinations_short by lia.
Qed.

Lemma outputs_at_depth_table s1 s2 args post n :
  exp_dict s1 !! n = exp_dict s2 !! n →
  outputs_at_depth s1 args post n = outputs_at_depth s2 args post n.
Proof.
  intros Hn. unfold outputs_at_depth, outputs_of_combo, getitem. by rewrite Hn.
Qed.

Lemma range_app a b c : a ≤ b ≤ c → range a c = range a b ++ range b c.
Proof.
  intros Hb. unfold range.
  replace (c - a) with ((b - a) + (c - b)) by lia.
  rewrite seqZ_app by lia. do 2 f_equal. lia.
Qed.

(** The rounds of the outermost loop up to depth [d], then the others. *)
Lemma loops_split (f : Z → result (list PyObj)) d d' :
  0 ≤ d ≤ d' →
  mjoin <$> mapM f (range 1 (d' + 1)) =
  v1 ← mjoin <$> mapM f (range 1 (d + 1));
  v2 ← mjoin <$> mapM f (range (d + 1) (d' + 1));
  mret (v1 ++ v2).
Proof.
  intros Hd. rewrite (range_app 1 (d + 1) (d' + 1)) by lia.
  apply join_mapM_app.
Qed.

Lemma loops_short self args post d d' :
  Z.of_nat (length args) ≤ d →
  mjoin <$> mapM (outputs_at_depth self args post) (range (d + 1) (d' + 1))
  = Return [].
Proof.
  intros Hd. apply join_mapM_nil. intros n [Hn _]%elem_of_range.
  apply outputs_at_depth_short. lia.
Qed.

Lemma bind_Return_nil (m : result (list PyObj)) :
  (v1 ← m; v2 ← Return []; mret (v1 ++ v2)) = m.
Proof. destruct m as [v|]; [|done]. simpl. by rewrite app_nil_r. Qed.

(** Beyond the number of arguments the depth does not matter. *)
Lemma loops_enough s1 s2 args post :
  (∀ n, 1 ≤ n ≤ Z.of_nat (length args) → exp_dict s1 !! n = exp_dict s2 !! n) →
  Z.of_nat (length args) ≤ multi_feature_depth s1 →
  Z.of_nat (length args) ≤ multi_feature_depth s2 →
  mjoin <$> mapM (outputs_at_depth s1 args post)
                 (range 1 (multi_feature_depth s1 + 1)) =
  mjoin <$> mapM (outputs_at_depth s2 args post)
                 (range 1 (multi_feature_depth s2 + 1)).
Proof.
  intros Ht H1 H2.
  rewrite (loops_split _ (Z.of_nat (length args)) (multi_feature_depth s1)) by lia.
  rewrite (loops_split _ (Z.of_nat (length args)) (multi_feature_depth s2)) by lia.
  rewrite !loops_short, !bind_Return_nil by lia.
  f_equal. apply mapM_result_ext. intros n Hn%elem_of_range.
  apply outputs_at_depth_table, Ht. lia.
Qed.

Lemma init_tables_agree expressions d1 d2 cf1 cf2 s1 s2 n :
  __init__ expressions d1 cf1 = Return s1 →
  __init__ expressions d2 cf2 = Return s2 →
  1 ≤ n ≤ d1 → n ≤ d2 →
  exp_dict s1 !! n = exp_dict s2 !! n.
Proof.
  intros (_ & Hin1 & _)%init_Return (_ & Hin2 & _)%init_Return Hn1 Hn2.
  destruct (Hin1 n) as (e1 & -> & Hg1); [lia|].
  destruct (Hin2 n) as (e2 & -> & Hg2); [lia|].
  congruence.
Qed.

(** X8 (_exp_iter): a depth above the number of arguments has no argument
    combination, so its table is never looked at: once the depth has
    reached the number of arguments, a larger one changes neither the
    outputs nor the labels. *)
Theorem depth_beyond_arguments expressions d1 d2 cf1 cf2 s1 s2 :
  __init__ expressions d1 cf1 = Return s1 →
  __init__ expressions d2 cf2 = Return s2 →
  (∀ args postprocess,
     Z.of_nat (length args) ≤ d1 → Z.of_nat (length args) ≤ d2 →
     featurize s1 args postprocess = featurize s2 args postprocess) ∧
  (∀ col_id latexify_labels,
     Z.of_nat (length col_id) ≤ d1 → Z.of_nat (length col_id) ≤ d2 →
     feature_labels s1 col_id latexify_labels
     = feature_labels s2 col_id latexify_labels).
Proof.
  intros Hs1 Hs2.
  pose proof (init_Return _ _ _ _ Hs1) as (Hd1 & _).
  pose proof (init_Return _ _ _ _ Hs2) as (Hd2 & _).
  split.
  - intros args postprocess H1 H2. rewrite !featurize_loops.
    apply loops_enough; [|lia..].
    intros n Hn. apply (init_tables_agree _ _ _ _ _ _ _ _ Hs1 Hs2); lia.
  - intros col_id latexify_labels H1 H2. rewrite !feature_labels_loops.
    apply loops_enough; rewrite ?length_fmap; [|lia..].
    intros n Hn. apply (init_tables_agree _ _ _ _ _ _ _ _ Hs1 Hs2); lia.
Qed.

(** X9 (_exp_iter): without arguments nothing is looked up or evaluated,
    whatever the featurizer holds: the result is empty. *)
Theorem no_arguments_no_outputs self :
  (∀ postprocess, featurize self [] postprocess = Return []) ∧
  (∀ latexify_labels, feature_labels self [] latexify_labels = Return []).
Proof.
  split; intros; [rewrite featurize_loops|rewrite feature_labels_loops];
    apply join_mapM_nil; intros n [Hn _]%elem_of_range;
    apply outputs_at_depth_short; simpl; lia.
Qed.

(** A deeper featurizer starts with the outputs of a shallower one. *)
Lemma loops_deeper s1 s2 args post :
  (∀ n, 1 ≤ n ≤ multi_feature_depth s1 → exp_dict s1 !! n = exp_dict s2 !! n) →
  multi_feature_depth s1 ≤ multi_feature_depth s2 →
  mjoin <$> mapM (outputs_at_depth s2 args post)
                 (range 1 (multi_feature_depth s2 + 1)) =
  v1 ← mjoin <$> mapM (outputs_at_depth s1 args post)
                      (range 1 (multi_feature_depth s1 + 1));
  v2 ← mjoin <$> mapM (outputs_at_depth s2 args post)
                      (range (Z.max 0 (multi_feature_depth s1) + 1)
                             (multi_feature_depth s2 + 1));
  mret (v1 ++ v2).
Proof.
  intros Ht Hd.
  destruct (decide (0 ≤ multi_feature_depth s1)) as [H0|H0].
  - rewrite Z.max_r by lia.
    rewrite (loops_split _ (multi_feature_depth s1) (multi_feature_depth s2)) by lia.
    f_equal. f_equal. apply mapM_result_ext. intros n Hn%elem_of_range.
    symmetry. apply outputs_at_depth_table, Ht. lia.
  - rewrite Z.max_l by lia. rewrite (range_empty 1 (multi_feature_depth s1 + 1)) by lia.
    change (mjoin <$> mapM _ []) with (Return (@nil PyObj)).
    rewrite result_bind_Return. simpl.
    by destruct (mjoin <$> mapM _ _).
Qed.

(** X10 (_exp_iter, __init__): depths are handled in ascending order, so
    the outputs of a featurizer start with the outputs of the shallower
    featurizer on the same expressions, and an exception of the shallower
    one is an exception of the deeper one. *)
Theorem deeper_featurizer_extends expressions d1 d2 cf1 cf2 s1 s2 args postprocess :
  __init__ expressions d1 cf1 = Return s1 →
  __init__ expressions d2 cf2 = Return s2 →
  d1 ≤ d2 →
  (∀ v2, featurize s2 args postprocess = Return v2 →
         ∃ v1, featurize s1 args postprocess = Return v1 ∧ v1 `prefix_of` v2) ∧
  (∀ c, featurize s1 args postprocess = Raise c →
        featurize s2 args postprocess = Raise c).
Proof.
  intros Hs1 Hs2 Hd.
  pose proof (init_Return _ _ _ _ Hs1) as (Hd1 & _).
  pose proof (init_Return _ _ _ _ Hs2) as (Hd2 & _).
  rewrite !featurize_loops.
  rewrite (loops_deeper s1 s2); [|..|lia].
  2:{ intros n Hn. apply (init_tables_agree _ _ _ _ _ _ _ _ Hs1 Hs2); lia. }
  destruct (mjoin <$> mapM _ (range 1 (multi_feature_depth s1 + 1))) as [v1|c1].
  - rewrite result_bind_Return. split; [|done].
    intros v2. destruct (mjoin <$> mapM _ _) as [v|]; [|done].
    intros [= <-]. exists v1. split; [done|]. by exists v.
  - split; [done|]. by intros c [= ->].
Qed.

(** X11 (_exp_iter): at depth 1 each argument is handled on its own:
    the outputs for a list of arguments are the outputs for its parts, one
    after the other. *)
Theorem depth_one_concatenates self args1 args2 postprocess :
  multi_feature_depth self = 1 →
  featurize self (args1 ++ args2) postprocess =
  v1 ← featurize self args1 postprocess;
  v2 ← featurize self args2 postprocess;
  mret (v1 ++ v2).
Proof.
  intros Hd. rewrite !featurize_loops, Hd.
  change (range 1 (1 + 1)) with [1].
  assert (∀ f : Z → result (list PyObj), mjoin <$> mapM f [1] = f 1) as Hone.
  { intros f. rewrite mapM_result_cons. destruct (f 1) as [v|]; [|done].
    simpl. by rewrite app_nil_r. }
  rewrite !Hone. unfold outputs_at_depth.
  change (Z.to_nat 1) with 1%nat.
  rewrite !combinations_one, fmap_app. apply join_mapM_app.
Qed.

(** X12 (_exp_iter): [self.exp_dict[n]] is not protected.  When
    [multi_feature_depth] asks for a depth [n] that the table has no list
    for (the attribute was changed after the construction), and there are
    at least [n] arguments, [featurize] raises KeyError, provided the
    depths below [n] are there and run through. *)
Theorem missing_table_entry_raises_KeyError self args postprocess n :
  1 ≤ n ≤ multi_feature_depth self →
  n ≤ Z.of_nat (length args) →
  exp_dict self !! n = None →
  (∀ m, 1 ≤ m < n → is_Some (exp_dict self !! m)) →
  (∀ t c, t ∈ triples self (length args) → t.1.1 < n →
          evaluated args (postprocess_or_identity postprocess) t = Raise c →
          handled c = true) →
  featurize self args postprocess = Raise KeyError.
Proof.
  intros Hn Hargs Hmiss Hbelow Hok.
  set (s' := {| expressions := expressions self;
                multi_feature_depth := n - 1;
                combo_function := combo_function self;
                exp_dict := exp_dict self |}).
  assert (complete s') as Hs'.
  { intros m Hm. apply Hbelow. simpl in Hm. lia. }
  destruct (featurize_returns s' args postprocess Hs') as [v1 Hv1].
  { intros t c Ht. apply Hok.
    - unfold triples in *.
      apply list_elem_of_bind in Ht as (m & Ht & Hm%elem_of_range).
      apply list_elem_of_bind. exists m. split; [done|].
      apply elem_of_range. simpl in Hm. lia.
    - unfold triples in Ht.
      apply list_elem_of_bind in Ht as (m & Ht & Hm%elem_of_range).
      apply list_elem_of_bind in Ht as (idxs & Ht & _).
      apply list_elem_of_bind in Ht as (e & Ht & _).
      apply list_elem_of_singleton in Ht as ->. simpl in *. lia. }
  rewrite featurize_loops in *.
  rewrite (loops_deeper s' self); [|done|simpl; lia].
  rewrite Hv1, result_bind_Return.
  change (multi_feature_depth s') with (n - 1).
  rewrite Z.max_r by lia. replace (n - 1 + 1) with n by lia.
  unfold range at 1. rewrite seqZ_cons by lia.
  rewrite mapM_result_cons.
  assert (outputs_at_depth self args (postprocess_or_identity postprocess) n
          = Raise KeyError) as ->; [|done].
  unfold outputs_at_depth.
  destruct (itertools.combinations args (Z.to_nat n)) as [|combo combos] eqn:Hc.
  { apply (f_equal length) in Hc. rewrite length_combinations in Hc.
    pose proof (choose_pos (length args) (Z.to_nat n)). simpl in Hc. lia. }
  rewrite mapM_result_cons. unfold outputs_of_combo, getitem.
  by rewrite Hmiss.
Qed.

(** The number of outputs. *)
Lemma length_triples self nargs :
  length (triples self nargs) = output_count self nargs.
Proof.
  unfold triples, output_count.
  induction (range 1 (multi_feature_depth self + 1)) as [|n ns IH]; [done|].
  rewrite bind_cons, length_app, IH, fmap_cons. simpl. f_equal.
  rewrite (length_bind_const _ _ (length (table self n))).
  - by rewrite length_index_combinations.
  - apply Forall_forall. intros idxs _.
    rewrite (length_bind_const _ _ 1%nat); [lia|].
    by apply Forall_forall.
Qed.

(** X7 (_exp_iter): the number of outputs, and of labels: at each depth
    [n], the number of ways to choose [n] of the arguments times the
    length of the table's list for [n]. *)
Theorem number_of_outputs self :
  complete self →
  (∀ args postprocess values,
     featurize self args postprocess = Return values →
     length values = output_count self (length args)) ∧
  (∀ col_id latexify_labels labels,
     feature_labels self col_id latexify_labels = Return labels →
     length labels = output_count self (length col_id)).
Proof.
  intros Hself. split.
  - intros args postprocess values. rewrite featurize_triples by done.
    intros ->%mapM_result_length. apply length_triples.
  - intros col_id latexify_labels labels. rewrite feature_labels_triples by done.
    intros ->%mapM_result_length. apply length_triples.
Qed.



End DepthFacts.

(** ** Membership in the results of a traversal and of itertools *)

Lemma elem_of_mapM_result {A B} (f : A → result B) l k y :
  mapM f l = Return k → y ∈ k ↔ ∃ x, x ∈ l ∧ f x = Return y.
Proof.
  intros Hk%mapM_result_Return.
  induction Hk as [|x z l k Hx _ IH].
  - split; [by intros ?%elem_of_nil|]. by intros (x & ?%elem_of_nil & _).
  - rewrite elem_of_cons, IH. split.
    + intros [->|(x' & ? & ?)]; [exists x|exists x']; split; try done;
        [left|by right].
    + intros (x' & [->|?]%elem_of_cons & Hy); [left; congruence|right; eauto].
Qed.

Lemma mapM_result_returns {A B} (f : A → result B) l :
  (∀ x, x ∈ l → ∃ y, f x = Return y) → ∃ k, mapM f l = Return k.
Proof.
  induction l as [|x l IH]; intros Hf; [by eexists|].
  destruct (Hf x) as [y Hy]; [left|].
  destruct IH as [k Hk]; [intros; apply Hf; by right|].
  exists (y :: k). by rewrite mapM_result_cons, Hy, Hk.
Qed.

Lemma mapM_result_elem_Return {A B} (f : A → result B) l k x :
  mapM f l = Return k → x ∈ l → ∃ y, f x = Return y.
Proof.
  intros Hk%mapM_result_Return [i Hi]%list_elem_of_lookup.
  destruct (Forall2_lookup_l _ _ _ _ _ Hk Hi) as (y & _ & Hy). eauto.
Qed.

Section Membership.
Context {A : Type}.
Implicit Types (l : list A).

Lemma elem_of_product (pools : list (list A)) s :
  s ∈ itertools.product pools ↔ Forall2 (λ x p, x ∈ p) s pools.
Proof.
  revert s. induction pools as [|p pools IH]; intros s; cbn [itertools.product].
  - rewrite list_elem_of_singleton. split; [intros ->; constructor|].
    by intros ->%Forall2_nil_inv_r.
  - rewrite list_elem_of_bind. split.
    + intros (x & (s' & -> & Hs')%list_elem_of_fmap & Hx).
      constructor; [done|]. by apply IH.
    + intros (x & s' & Hx & Hs' & ->)%Forall2_cons_inv_r.
      exists x. split; [|done]. apply list_elem_of_fmap. exists s'.
      split; [done|]. by apply IH.
Qed.

Lemma elem_of_picks l x rest :
  (x, rest) ∈ itertools.picks l ↔
  ∃ l1 l2, l = l1 ++ x :: l2 ∧ rest = l1 ++ l2.
Proof.
  revert rest. induction l as [|y l IH]; intros rest; simpl.
  - split; [by intros ?%elem_of_nil|]. intros (l1 & l2 & Hl & _).
    by destruct l1.
  - rewrite elem_of_cons, list_elem_of_fmap. split.
    + intros [[= -> ->]|([x' rest'] & [= -> ->] & Hq)].
      * by exists [], l.
      * apply IH in Hq as (l1 & l2 & -> & ->). by exists (y :: l1), l2.
    + intros (l1 & l2 & Hl & ->). destruct l1 as [|z l1]; simplify_eq/=.
      * by left.
      * right. exists (x, l1 ++ l2). split; [done|]. apply IH. eauto.
Qed.

Lemma elem_of_permutations_of_length n l s :
  length l = n →
  s ∈ itertools.permutations_of_length n l ↔ s ≡ₚ l.
Proof.
  revert l s. induction n as [|n IH]; intros l s Hl;
    cbn [itertools.permutations_of_length].
  - apply length_zero_iff_nil in Hl as ->. rewrite list_elem_of_singleton.
    split; [by intros ->|]. by intros ->%Permutation_nil_r.
  - rewrite list_elem_of_bind. split.
    + intros ([x rest] & (s' & -> & Hs')%list_elem_of_fmap & Hp).
      simpl in *. apply elem_of_picks in Hp as (l1 & l2 & -> & ->).
      apply IH in Hs'.
      * rewrite Hs'. apply Permutation_middle.
      * rewrite length_app in *. simpl in Hl. lia.
    + intros Hs. destruct s as [|x s'].
      { apply Permutation_length in Hs. simpl in Hs. lia. }
      assert (x ∈ l) as (l1 & l2 & ->)%list_elem_of_split.
      { rewrite <- Hs. left. }
      exists (x, l1 ++ l2). split.
      * apply list_elem_of_fmap. exists s'. split; [done|]. simpl.
        apply IH.
        -- rewrite length_app in *. simpl in Hl. lia.
        -- by eapply Permutation_cons_app_inv.
      * apply elem_of_picks. eauto.
Qed.

Lemma elem_of_permutations l s : s ∈ itertools.permutations l ↔ s ≡ₚ l.
Proof. by apply elem_of_permutations_of_length. Qed.
End Membership.

Section GeneratedFacts.
Context `{SymPy}.

(** A depth below 1: nothing to pick from, and a single call of the
    combining function, on the empty tuple. *)
Lemma candidates_no_arrays expressions combo_depth combo_function :
  combo_depth ≤ 0 →
  candidates expressions combo_depth combo_function =
  _ ← mapM parse_expr expressions; c ← combo_function []; mret [c].
Proof.
  intros Hd. rewrite candidates_steps, range_empty by lia.
  destruct (mapM parse_expr expressions) as [exp_array|]; [|done].
  rewrite !result_bind_Return.
  change (mapM _ []) with (Return (@nil (list Expr))).
  rewrite result_bind_Return. unfold combo_exps.
  change (itertools.product [] ≫= _) with [@nil Expr].
  rewrite mapM_result_cons. by destruct (combo_function []).
Qed.

(** X6 (generate_expressions_combinations): with a depth below 1 there is
    no array; [product] of nothing has the empty tuple as its one element,
    and the combining function is called once, on the empty tuple. *)
Theorem no_arrays_single_candidate expressions combo_depth combo_function :
  combo_depth ≤ 0 →
  generate_expressions_combinations expressions combo_depth combo_function =
  _ ← mapM parse_expr expressions;
  c ← combo_function [];
  x0 ← parse_expr "x0";
  mret (list_of_set (set_difference (set_ [c]) (set_ [x0]))).
Proof.
  intros Hd. rewrite generate_candidates, candidates_no_arrays by done.
  destruct (mapM parse_expr expressions); [|done].
  rewrite !result_bind_Return. by destruct (combo_function []).
Qed.

Lemma elem_of_all_arrays (exp_array : list Expr) ns all_arrays pick :
  mapM (λ n, mapM (rename n) exp_array) ns = Return all_arrays →
  pick ∈ itertools.product all_arrays ↔
  ∃ bases, length bases = length ns ∧ Forall (.∈ exp_array) bases ∧
           mapM (λ nb, rename nb.1 nb.2) (zip ns bases) = Return pick.
Proof.
  rewrite elem_of_product. intros Hall%mapM_result_Return.
  revert pick. induction Hall as [|n arr ns arrs Hn _ IH]; intros pick.
  - split.
    + intros ->%Forall2_nil_inv_r. by exists [].
    + intros (bases & Hlen & _ & Hp). destruct bases; [|done].
      injection Hp as <-. constructor.
  - split.
    + intros (x & pick' & Hx & Hp & ->)%Forall2_cons_inv_r.
      apply IH in Hp as (bases & Hlen & Hin & Hp).
      apply (elem_of_mapM_result _ _ _ _ Hn) in Hx as (b & Hb & Hx).
      exists (b :: bases). split_and!; [simpl; lia|by constructor|].
      cbn [zip zip_with]. rewrite mapM_result_cons. simpl.
      by rewrite Hx, Hp.
    + intros (bases & Hlen & Hin & Hp). destruct bases as [|b bases]; [done|].
      cbn [zip zip_with] in Hp. rewrite mapM_result_cons in Hp. simpl in Hp.
      destruct (rename n b) as [x|] eqn:Hx; [|done].
      rewrite result_bind_Return in Hp.
      destruct (mapM _ (zip ns bases)) as [pick'|] eqn:Hp'; [|done].
      injection Hp as <-. apply Forall_cons in Hin as [Hb Hin].
      constructor.
      * apply (elem_of_mapM_result _ _ _ _ Hn). eauto.
      * apply IH. exists bases. split_and!; [simpl in Hlen; lia|done..].
Qed.

(** The candidates, described. *)
Lemma elem_of_candidates expressions combo_depth combo_function cands :
  candidates expressions combo_depth combo_function = Return cands →
  ∃ exp_array,
    mapM parse_expr expressions = Return exp_array ∧
    (∀ bases, length bases = Z.to_nat combo_depth →
              Forall (.∈ exp_array) bases →
              ∃ renamed, renamed_bases combo_depth bases = Return renamed) ∧
    ∀ e, e ∈ cands ↔
         ∃ bases renamed exp_set,
           length bases = Z.to_nat combo_depth ∧
           Forall (.∈ exp_array) bases ∧
           renamed_bases combo_depth bases = Return renamed ∧
           exp_set ≡ₚ renamed ∧
           combo_function exp_set = Return e.
Proof.
  rewrite candidates_steps.
  destruct (mapM parse_expr expressions) as [exp_array|] eqn:Harr; [|done].
  rewrite result_bind_Return.
  destruct (mapM _ (range 0 combo_depth)) as [all_arrays|] eqn:Hall; [|done].
  rewrite result_bind_Return. intros Hc. exists exp_array. split; [done|].
  assert (length (range 0 combo_depth) = Z.to_nat combo_depth) as Hlen.
  { rewrite length_range. f_equal. lia. }
  split.
  - intros bases Hb Hin. unfold renamed_bases.
    apply mapM_result_returns. intros [n b] Hnb. simpl.
    apply elem_of_zip_l in Hnb as Hn1. apply elem_of_zip_r in Hnb as Hb1.
    apply (mapM_result_elem_Return _ _ _ n Hall) in Hn1 as [arr Harr'].
    eapply mapM_result_elem_Return; [exact Harr'|].
    rewrite Forall_forall in Hin. by apply Hin.
  - intros e. unfold combo_exps in Hc.
    rewrite (elem_of_mapM_result _ _ _ _ Hc). split.
    + intros (exp_set & (pick & Hperm & Hpick)%list_elem_of_bind & He).
      apply elem_of_permutations in Hperm.
      apply (elem_of_all_arrays _ _ _ _ Hall) in Hpick as (bases & ? & ? & ?).
      exists bases, pick, exp_set. split_and!; try done. congruence.
    + intros (bases & renamed & exp_set & Hb & Hin & Hr & Hperm & He).
      exists exp_set. split; [|done]. apply list_elem_of_bind.
      exists renamed. split; [by apply elem_of_permutations|].
      apply (elem_of_all_arrays _ _ _ _ Hall). exists bases.
      split_and!; [congruence|done..].
Qed.

(** X14 (generate_expressions_combinations): what is generated.  An
    expression is in the result exactly when it is not [x0] and is what the
    combining function returns on some ordering of [combo_depth] base
    expressions, the one at position [n] renamed to the slot [n]. *)
Theorem generated_expressions_described
    expressions combo_depth combo_function unique_exps :
  generate_expressions_combinations expressions combo_depth combo_function
    = Return unique_exps →
  ∃ exp_array x0,
    mapM parse_expr expressions = Return exp_array ∧
    parse_expr "x0" = Return x0 ∧
    ∀ e, e ∈ unique_exps ↔
         e ≠ x0 ∧
         ∃ bases renamed exp_set,
           length bases = Z.to_nat combo_depth ∧
           Forall (.∈ exp_array) bases ∧
           renamed_bases combo_depth bases = Return renamed ∧
           exp_set ≡ₚ renamed ∧
           combo_function exp_set = Return e.
Proof.
  intros (cands & x0 & Hc & Hx0 & _ & Hin)%generate_Return.
  apply elem_of_candidates in Hc as (exp_array & Harr & _ & Hcands).
  exists exp_array, x0. split_and!; [done..|].
  intros e. rewrite Hin, Hcands. tauto.
Qed.

(** Candidates exist when each call returns. *)
Lemma candidates_returns expressions combo_depth combo_function exp_array :
  mapM parse_expr expressions = Return exp_array →
  (∀ bases, length bases = Z.to_nat combo_depth →
            Forall (.∈ exp_array) bases →
            ∃ renamed, renamed_bases combo_depth bases = Return renamed ∧
              ∀ exp_set, exp_set ≡ₚ renamed →
                         ∃ e, combo_function exp_set = Return e) →
  ∃ cands, candidates expressions combo_depth combo_function = Return cands.
Proof.
  intros Harr Hok. rewrite candidates_steps, Harr, result_bind_Return.
  assert (length (range 0 combo_depth) = Z.to_nat combo_depth) as Hlen.
  { rewrite length_range. f_equal. lia. }
  destruct (mapM_result_returns (λ n, mapM (rename n) exp_array)
              (range 0 combo_depth)) as [all_arrays Hall].
  { intros n Hn. apply mapM_result_returns. intros b Hb.
    apply list_elem_of_lookup in Hn as [i Hi].
    destruct (Hok (replicate (Z.to_nat combo_depth) b)) as (renamed & Hr & _).
    { apply length_replicate. }
    { apply Forall_replicate, Hb. }
    eapply (mapM_result_elem_Return _ _ _ (n, b)) in Hr; [done|].
    apply list_elem_of_lookup. exists i.
    rewrite lookup_zip_with, Hi. simpl.
    rewrite lookup_replicate_2; [done|].
    apply lookup_lt_Some in Hi. lia. }
  rewrite Hall, result_bind_Return. unfold combo_exps.
  apply mapM_result_returns.
  intros exp_set (pick & Hperm%elem_of_permutations & Hpick)%list_elem_of_bind.
  apply (elem_of_all_arrays _ _ _ _ Hall) in Hpick as (bases & Hb & Hin & Hp).
  destruct (Hok bases) as (renamed & Hr & Hcf); [congruence|done|].
  apply Hcf. unfold renamed_bases in Hr. congruence.
Qed.

Lemma candidates_Return_calls expressions combo_depth combo_function cands
    exp_array bases renamed exp_set :
  candidates expressions combo_depth combo_function = Return cands →
  mapM parse_expr expressions = Return exp_array →
  length bases = Z.to_nat combo_depth →
  Forall (.∈ exp_array) bases →
  renamed_bases combo_depth bases = Return renamed →
  exp_set ≡ₚ renamed →
  ∃ e, combo_function exp_set = Return e.
Proof.
  rewrite candidates_steps. intros Hc Harr Hb Hin Hr Hperm.
  rewrite Harr, result_bind_Return in Hc.
  destruct (mapM _ (range 0 combo_depth)) as [all_arrays|] eqn:Hall; [|done].
  rewrite result_bind_Return in Hc. unfold combo_exps in Hc.
  eapply mapM_result_elem_Return; [exact Hc|].
  apply list_elem_of_bind. exists renamed.
  split; [by apply elem_of_permutations|].
  apply (elem_of_all_arrays _ _ _ _ Hall). exists bases.
  split_and!; [|done..]. rewrite length_range, Hb. f_equal. lia.
Qed.

(** X15 (generate_expressions_combinations): the order of the base
    expressions and repeats among them do not matter: two lists with the
    same elements generate the same expressions, each once (the order of the
    result is that of a set and may differ). *)
Theorem expression_order_irrelevant
    expressions1 expressions2 combo_depth combo_function unique_exps1 :
  (∀ s, s ∈ expressions1 ↔ s ∈ expressions2) →
  generate_expressions_combinations expressions1 combo_depth combo_function
    = Return unique_exps1 →
  ∃ unique_exps2,
    generate_expressions_combinations expressions2 combo_depth combo_function
      = Return unique_exps2 ∧
    unique_exps1 ≡ₚ unique_exps2.
Proof.
  intros Hsame Hgen.
  pose proof Hgen as (cands1 & x0 & Hc1 & Hx0 & Hnd1 & Hin1)%generate_Return.
  pose proof Hc1 as (arr1 & Harr1 & Hren1 & Hcands1)%elem_of_candidates.
  destruct (mapM_result_returns parse_expr expressions2) as [arr2 Harr2].
  { intros s Hs%Hsame. by eapply mapM_result_elem_Return. }
  assert (∀ b, b ∈ arr1 ↔ b ∈ arr2) as Harr.
  { intros b. rewrite (elem_of_mapM_result _ _ _ _ Harr1).
    rewrite (elem_of_mapM_result _ _ _ _ Harr2).
    by setoid_rewrite Hsame. }
  assert (∀ bases, Forall (.∈ arr1) bases ↔ Forall (.∈ arr2) bases) as HF.
  { intros bases. apply Forall_proper; [|done]. intros b. apply Harr. }
  destruct (candidates_returns expressions2 combo_depth combo_function arr2)
    as [cands2 Hc2]; [done| |].
  { intros bases Hb Hin%HF. destruct (Hren1 bases Hb Hin) as [renamed Hr].
    exists renamed. split; [done|]. intros exp_set Hperm.
    by eapply (candidates_Return_calls expressions1). }
  pose proof Hc2 as (arr2' & Harr2' & _ & Hcands2)%elem_of_candidates.
  assert (arr2' = arr2) as -> by congruence.
  exists (list_of_set (set_difference (set_ cands2) (set_ [x0]))). split.
  { by rewrite generate_candidates, Hc2, result_bind_Return, Hx0. }
  apply NoDup_Permutation; [done| |].
  { unfold list_of_set. rewrite set_iter_perm.
    apply NoDup_list_difference, NoDup_remove_dups. }
  intros e. rewrite Hin1. unfold list_of_set. rewrite set_iter_perm.
  unfold set_difference, set_.
  rewrite list_elem_of_difference, elem_of_remove_dups, elem_of_remove_dups.
  rewrite list_elem_of_singleton, Hcands1, Hcands2.
  by setoid_rewrite HF.
Qed.
End GeneratedFacts.

(* ================================================================== *)
(** ** On the examples, again                                          *)
(* ================================================================== *)

Module OnMoreExamples.
Import Examples.

Local Abbreviation x0 := Model.x0.
Local Abbreviation inv := Model.inv.
Local Abbreviation square := (Model.Pow Model.x0 (Model.Rational 2)).
Local Abbreviation ff2 := (x_and_inverse engine [inv x0] Model.products).
Local Abbreviation ff1 := (inverse_and_square engine [inv x0; square]).

(** [FunctionFeaturizer(["x", "1/x"])], of depth 1. *)
Local Abbreviation ff2_shallow :=
  {| expressions := ["x"; "1/x"]%string;
     multi_feature_depth := 1;
     combo_function := np_prod (H:=engine);
     exp_dict := list_to_map [(1, [inv x0])] |}.

(** The second example after [multi_feature_depth] was set to 2 on the
    object: its table has no list for depth 2. *)
Local Abbreviation ff1_deepened :=
  {| expressions := ["1/x"; "x**2"]%string;
     multi_feature_depth := 2;
     combo_function := np_prod (H:=engine);
     exp_dict := list_to_map [(1, [inv x0; square])] |}.

(** [FunctionFeaturizer([])], which is [FunctionFeaturizer()]: the default
    expressions and their table. *)
Local Abbreviation ff_default :=
  {| expressions := default_exps;
     multi_feature_depth := 1;
     combo_function := np_prod (H:=engine);
     exp_dict := list_to_map [(1, Model.default_table)] |}.

Lemma combo_function_not_used_witness :
  ∃ s2,
    __init__ (H:=engine) (Some ["1/x"; "x**2"]%string) 1
             (Some (λ _, Raise ValueError)) = Return s2 ∧
    exp_dict s2 = exp_dict ff1 ∧
    (∀ args postprocess,
       featurize s2 args postprocess = featurize ff1 args postprocess) ∧
    (∀ col_id latexify_labels,
       feature_labels s2 col_id latexify_labels
       = feature_labels ff1 col_id latexify_labels).
Proof.
  refine (proj2 (combo_function_not_used (H:=engine)
                   (Some ["1/x"; "x**2"]%string) 1 None
                   (Some (λ _, Raise ValueError))) ff1 _).
  reflexivity.
Defined.

Lemma table_holds_generated_lists_witness :
  exp_dict ff1 !! 1 = Some [inv x0; square] ↔
  1 ≤ 1 ≤ 1 ∧
  generate_expressions_combinations (H:=engine)
    ["1/x"; "x**2"]%string 1 np_prod = Return [inv x0; square].
Proof.
  refine (table_holds_generated_lists (H:=engine)
            (Some ["1/x"; "x**2"]%string) 1 None ff1 _ 1 [inv x0; square]).
  reflexivity.
Defined.

Lemma unparsable_expression_raises_witness :
  (∀ combo_depth combo_function,
     generate_expressions_combinations (H:=engine)
       ["1/x"; "2x"]%string combo_depth combo_function = Raise SyntaxError) ∧
  (∀ depth combo_function,
     1 ≤ depth →
     __init__ (H:=engine) (Some ["1/x"; "2x"]%string) depth combo_function
     = Raise SyntaxError).
Proof.
  refine (unparsable_expression_raises (H:=engine)
            ["1/x"; "2x"]%string 1 "2x" SyntaxError _ _ _).
  - reflexivity.
  - reflexivity.
  - intros [|j] s' Hj Hs; [|lia].
    assert (s' = "1/x"%string) as -> by (simpl in Hs; congruence).
    eexists. reflexivity.
Defined.

Lemma candidate_count_witness :
  ∃ cands,
    candidates (H:=engine) ["x"; "1/x"]%string 2 np_prod = Return cands ∧
    length cands = 8%nat ∧
    (length Model.products ≤ length cands)%nat.
Proof.
  refine (candidate_count (H:=engine) ["x"; "1/x"]%string 2 np_prod
            Model.products _).
  vm_compute. reflexivity.
Defined.

Lemma no_arrays_single_candidate_witness :
  generate_expressions_combinations (H:=engine) ["x"]%string 0 np_prod =
  _ ← mapM (parse_expr (SymPy:=engine)) ["x"]%string;
  c ← np_prod (H:=engine) [];
  x0 ← parse_expr (SymPy:=engine) "x0";
  mret (list_of_set (set_difference (set_ [c]) (set_ [x0]))).
Proof.
  refine (no_arrays_single_candidate (H:=engine) ["x"]%string 0 np_prod _). lia.
Defined.

Lemma expressions_never_empty_witness :
  (__init__ (H:=engine) None 1 None = Return ff_default ∧
   __init__ (H:=engine) (Some []) 1 None = Return ff_default) ∧
  expressions ff_default ≠ [] ∧
  expressions ff_default = default_exps ∧
  __init__ (H:=engine) (Some default_exps) 1 None = Return ff_default.
Proof.
  split; [split; reflexivity|].
  refine (let T := expressions_never_empty (H:=engine) (Some []) 1 None
                     ff_default _ in
          conj (proj1 T) (proj2 T (or_intror eq_refl))).
  reflexivity.
Defined.

Lemma depth_beyond_arguments_witness :
  (∀ args postprocess,
     Z.of_nat (length args) ≤ 1 → Z.of_nat (length args) ≤ 2 →
     featurize ff2_shallow args postprocess = featurize ff2 args postprocess) ∧
  (∀ col_id latexify_labels,
     Z.of_nat (length col_id) ≤ 1 → Z.of_nat (length col_id) ≤ 2 →
     feature_labels ff2_shallow col_id latexify_labels
     = feature_labels ff2 col_id latexify_labels).
Proof.
  refine (depth_beyond_arguments (H:=engine)
            (Some ["x"; "1/x"]%string) 1 2 None None ff2_shallow ff2 _ _);
    reflexivity.
Defined.

Lemma deeper_featurizer_extends_witness :
  (∀ v2, featurize ff2 [PyStr "a"; PyStr "b"] (Some py_str) = Return v2 →
         ∃ v1, featurize ff2_shallow [PyStr "a"; PyStr "b"] (Some py_str)
               = Return v1 ∧ v1 `prefix_of` v2) ∧
  (∀ c, featurize ff2_shallow [PyStr "a"; PyStr "b"] (Some py_str) = Raise c →
        featurize ff2 [PyStr "a"; PyStr "b"] (Some py_str) = Raise c).
Proof.
  refine (deeper_featurizer_extends (H:=engine)
            (Some ["x"; "1/x"]%string) 1 2 None None ff2_shallow ff2
            [PyStr "a"; PyStr "b"] (Some py_str) _ _ _);
    [reflexivity..|lia].
Defined.

Lemma depth_one_concatenates_witness :
  featurize ff1 ([PyStr "a"] ++ [PyStr "b"]) (Some py_str) =
  v1 ← featurize ff1 [PyStr "a"] (Some py_str);
  v2 ← featurize ff1 [PyStr "b"] (Some py_str);
  mret (v1 ++ v2).
Proof.
  refine (depth_one_concatenates ff1 [PyStr "a"] [PyStr "b"] (Some py_str) _).
  reflexivity.
Defined.

Lemma missing_table_entry_raises_KeyError_witness :
  featurize ff1_deepened [PyStr "a"; PyStr "b"] (Some py_str) = Raise KeyError.
Proof.
  refine (missing_table_entry_raises_KeyError ff1_deepened [PyStr "a"; PyStr "b"]
            (Some py_str) 2 _ _ _ _ _).
  - simpl. lia.
  - simpl. lia.
  - reflexivity.
  - intros m Hm. assert (m = 1) as -> by lia. eexists. reflexivity.
  - intros t c Ht _ Hc. apply list_elem_of_In in Ht.
    vm_compute in Ht.
    repeat (destruct Ht as [<-|Ht]; [vm_compute in Hc; discriminate Hc|]).
    destruct Ht.
Defined.

Lemma number_of_outputs_witness :
  (∀ args postprocess values,
     featurize ff1 args postprocess = Return values →
     length values = output_count ff1 (length args)) ∧
  (∀ col_id latexify_labels labels,
     feature_labels ff1 col_id latexify_labels = Return labels →
     length labels = output_count ff1 (length col_id)).
Proof.
  refine (number_of_outputs ff1 _).
  apply (init_complete (Some ["1/x"; "x**2"]%string) 1 None). reflexivity.
Defined.

Lemma generated_expressions_described_witness :
  ∃ exp_array x0',
    mapM (parse_expr (SymPy:=engine)) ["x"; "1/x"]%string = Return exp_array ∧
    parse_expr (SymPy:=engine) "x0" = Return x0' ∧
    ∀ e, e ∈ Model.products ↔
         e ≠ x0' ∧
         ∃ bases renamed exp_set,
           length bases = 2%nat ∧
           Forall (.∈ exp_array) bases ∧
           renamed_bases 2 bases = Return renamed ∧
           exp_set ≡ₚ renamed ∧
           np_prod exp_set = Return e.
Proof.
  refine (generated_expressions_described (H:=engine) ["x"; "1/x"]%string 2 np_prod
            Model.products _).
  vm_compute. reflexivity.
Defined.

Lemma expression_order_irrelevant_witness :
  ∃ unique_exps2,
    generate_expressions_combinations (H:=engine)
      ["x**2"; "1/x"]%string 1 np_prod = Return unique_exps2 ∧
    [square; inv x0] ≡ₚ unique_exps2.
Proof.
  refine (expression_order_irrelevant (H:=engine)
            ["1/x"; "x**2"; "1/x"]%string ["x**2"; "1/x"]%string 1 np_prod
            [square; inv x0] _ _).
  - intros s. rewrite !elem_of_cons, !elem_of_nil. tauto.
  - vm_compute. reflexivity.
Defined.
End OnMoreExamples.
